(** * quick-lint-js: diagnostic taxonomy, reporters and the byte-stream event loop

    A shallow embedding of [src/quick-lint-js/error.h] (the X-macro table
    [QLJS_X_ERROR_TYPES], [error_reporter], [null_error_reporter]) and of
    the header guarded by [QUICK_LINT_JS_EVENT_LOOP_H] ([event_loop::run],
    [event_loop::read_from_pipe]), followed by the properties established
    for them. *)

From Stdlib Require Import List String Ascii ZArith Bool Lia.
From Stdlib Require Import Permutation Sorted.
Import ListNotations.
Local Open Scope string_scope.

(* ================================================================== *)
(** * Part I.  Definitions *)
(* ================================================================== *)

(** ** error.h *)

Module Error.

(** The types a diagnostic struct member can have (error.h only ever
    declares members of these five types). *)
Inductive member_type : Type :=
| identifier
| source_code_span
| variable_kind
| statement_kind
| char8.

(** An argument handed to [.error], [.warning] or [.note] after the
    message: a data member, or one of the two expressions built from
    data members that occur in the table. *)
Inductive format_arg : Type :=
| member (name : string)
    (* [name] *)
| span_from_to (first last : string)
    (* [source_code_span(first.begin(), last.end())] *)
| string8_view_of (name : string).
    (* [string8_view(&name, 1)] *)

(** One call of the format chain; the argument of QLJS_TRANSLATABLE is kept as
    the message text. *)
Inductive message : Type :=
| error (text : string) (args : list format_arg)
| warning (text : string) (args : list format_arg)
| note (text : string) (args : list format_arg).

(** One [QLJS_ERROR_TYPE(name, code, struct_body, format_call)] entry. *)
Record error_type : Type := QLJS_ERROR_TYPE {
  name : string;
  code : string;
  struct_body : list (member_type * string);
  format_call : list message
}.

(** The double-quote character, for the one message that contains it. *)
Definition dquote : string := String (ascii_of_nat 34) EmptyString.

Definition QLJS_X_ERROR_TYPES : list error_type :=
[
  QLJS_ERROR_TYPE "error_assignment_before_variable_declaration" "E001"
    [(identifier, "assignment"); (identifier, "declaration")]
    [error "variable assigned before its declaration" [member "assignment"];
     note "variable declared here" [member "declaration"]];
  QLJS_ERROR_TYPE "error_assignment_to_const_global_variable" "E002"
    [(identifier, "assignment")]
    [error "assignment to const global variable" [member "assignment"]];
  QLJS_ERROR_TYPE "error_assignment_to_const_variable" "E003"
    [(identifier, "declaration");
     (identifier, "assignment");
     (variable_kind, "var_kind")]
    [error "assignment to const variable" [member "assignment"];
     note "const variable declared here" [member "declaration"]];
  QLJS_ERROR_TYPE
    "error_assignment_to_const_variable_before_its_declaration" "E004"
    [(identifier, "declaration");
     (identifier, "assignment");
     (variable_kind, "var_kind")]
    [error "assignment to const variable before its declaration"
       [member "assignment"];
     note "const variable declared here" [member "declaration"]];
  QLJS_ERROR_TYPE "error_assignment_to_undeclared_variable" "E059"
    [(identifier, "assignment")]
    [warning "assignment to undeclared variable" [member "assignment"]];
  QLJS_ERROR_TYPE "error_await_operator_outside_async" "E162"
    [(source_code_span, "await_operator")]
    [error "'await' is only allowed in async functions"
       [member "await_operator"]];
  QLJS_ERROR_TYPE "error_big_int_literal_contains_decimal_point" "E005"
    [(source_code_span, "where")]
    [error "BigInt literal contains decimal point" [member "where"]];
  QLJS_ERROR_TYPE "error_big_int_literal_contains_exponent" "E006"
    [(source_code_span, "where")]
    [error "BigInt literal contains exponent" [member "where"]];
  QLJS_ERROR_TYPE "error_c_style_for_loop_is_missing_third_component" "E093"
    [(source_code_span, "expected_last_component");
     (source_code_span, "existing_semicolon")]
    [error "C-style for loop is missing its third component"
       [member "expected_last_component"]];
  QLJS_ERROR_TYPE
    "error_cannot_assign_to_variable_named_async_in_for_of_loop" "E082"
    [(identifier, "async_identifier")]
    [error "assigning to 'async' in a for-of loop requires parentheses"
       [member "async_identifier"]];
  QLJS_ERROR_TYPE "error_cannot_declare_await_in_async_function" "E069"
    [(identifier, "name")]
    [error "cannot declare 'await' inside async function" [member "name"]];
  QLJS_ERROR_TYPE "error_cannot_declare_class_named_let" "E007"
    [(source_code_span, "name")]
    [error "classes cannot be named 'let'" [member "name"]];
  QLJS_ERROR_TYPE "error_cannot_declare_variable_named_let_with_let" "E008"
    [(source_code_span, "name")]
    [error "let statement cannot declare variables named 'let'"
       [member "name"]];
  QLJS_ERROR_TYPE "error_cannot_declare_variable_with_keyword_name" "E124"
    [(source_code_span, "keyword")]
    [error "cannot declare variable named keyword '{0}'" [member "keyword"]];
  QLJS_ERROR_TYPE "error_cannot_declare_yield_in_generator_function" "E071"
    [(identifier, "name")]
    [error "cannot declare 'yield' inside generator function" [member "name"]];
  QLJS_ERROR_TYPE "error_cannot_export_default_variable" "E076"
    [(source_code_span, "declaring_token")]
    [error "cannot declare and export variable with 'export default'"
       [member "declaring_token"]];
  QLJS_ERROR_TYPE "error_cannot_export_let" "E009"
    [(source_code_span, "export_name")]
    [error "cannot export variable named 'let'" [member "export_name"]];
  QLJS_ERROR_TYPE "error_cannot_export_variable_named_keyword" "E144"
    [(identifier, "export_name")]
    [error "cannot export variable named keyword '{0}'"
       [member "export_name"]];
  QLJS_ERROR_TYPE "error_cannot_import_let" "E010"
    [(source_code_span, "import_name")]
    [error "cannot import 'let'" [member "import_name"]];
  QLJS_ERROR_TYPE "error_cannot_import_variable_named_keyword" "E145"
    [(identifier, "import_name")]
    [error "cannot import variable named keyword '{0}'"
       [member "import_name"]];
  QLJS_ERROR_TYPE
    "error_cannot_refer_to_private_variable_without_object" "E155"
    [(identifier, "private_identifier")]
    [error "cannot reference private variables without object; use 'this.'"
       [member "private_identifier"]];
  QLJS_ERROR_TYPE "error_cannot_update_variable_during_declaration" "E136"
    [(source_code_span, "declaring_token");
     (source_code_span, "updating_operator")]
    [error "cannot update variable with '{0}' while declaring it"
       [member "updating_operator"];
     note "remove '{0}' to update an existing variable"
       [member "declaring_token"]];
  QLJS_ERROR_TYPE "error_catch_without_try" "E117"
    [(source_code_span, "catch_token")]
    [error "unexpected 'catch' without 'try'" [member "catch_token"]];
  QLJS_ERROR_TYPE "error_class_statement_not_allowed_in_body" "E149"
    [(statement_kind, "kind_of_statement");
     (source_code_span, "expected_body");
     (source_code_span, "class_keyword")]
    [error "missing body for {1:headlinese}"
       [member "expected_body"; member "kind_of_statement"];
     note "a class statement is not allowed as the body of {1:singular}"
       [member "class_keyword"; member "kind_of_statement"]];
  QLJS_ERROR_TYPE "error_character_disallowed_in_identifiers" "E011"
    [(source_code_span, "character")]
    [error "character is not allowed in identifiers" [member "character"]];
  QLJS_ERROR_TYPE "error_comma_not_allowed_after_spread_parameter" "E070"
    [(source_code_span, "comma"); (source_code_span, "spread")]
    [error "commas are not allowed after spread parameter" [member "comma"]];
  QLJS_ERROR_TYPE "error_else_has_no_if" "E065"
    [(source_code_span, "else_token")]
    [error "'else' has no corresponding 'if'" [member "else_token"]];
  QLJS_ERROR_TYPE "error_escaped_character_disallowed_in_identifiers" "E012"
    [(source_code_span, "escape_sequence")]
    [error "escaped character is not allowed in identifiers"
       [member "escape_sequence"]];
  QLJS_ERROR_TYPE "error_escaped_code_point_in_identifier_out_of_range" "E013"
    [(source_code_span, "escape_sequence")]
    [error "code point out of range" [member "escape_sequence"]];
  QLJS_ERROR_TYPE "error_extra_comma_not_allowed_between_arguments" "E068"
    [(source_code_span, "comma")]
    [error "extra ',' is not allowed between function call arguments"
       [member "comma"]];
  QLJS_ERROR_TYPE "error_expected_as_before_imported_namespace_alias" "E126"
    [(source_code_span, "alias"); (source_code_span, "star_token")]
    [error "expected 'as' between '{1}' and '{2}'"
       [span_from_to "star_token" "alias";
        member "star_token";
        member "alias"]];
  QLJS_ERROR_TYPE
    "error_expected_comma_to_separate_object_literal_entries" "E131"
    [(source_code_span, "unexpected_token")]
    [error "expected ',' between object literal entries"
       [member "unexpected_token"]];
  QLJS_ERROR_TYPE "error_expected_expression_before_newline" "E014"
    [(source_code_span, "where")]
    [error "expected expression before newline" [member "where"]];
  QLJS_ERROR_TYPE "error_expected_expression_for_switch_case" "E140"
    [(source_code_span, "case_token")]
    [error "expected expression after 'case'" [member "case_token"]];
  QLJS_ERROR_TYPE "error_expected_expression_before_semicolon" "E015"
    [(source_code_span, "where")]
    [error "expected expression before semicolon" [member "where"]];
  QLJS_ERROR_TYPE "error_expected_from_and_module_specifier" "E129"
    [(source_code_span, "where")]
    [error ("expected 'from " ++ dquote ++ "name_of_module.mjs" ++ dquote ++ "'")
       [member "where"]];
  QLJS_ERROR_TYPE "error_expected_from_before_module_specifier" "E128"
    [(source_code_span, "module_specifier")]
    [error "expected 'from' before module specifier"
       [member "module_specifier"]];
  QLJS_ERROR_TYPE "error_expected_hex_digits_in_unicode_escape" "E016"
    [(source_code_span, "escape_sequence")]
    [error "expected hexadecimal digits in Unicode escape sequence"
       [member "escape_sequence"]];
  QLJS_ERROR_TYPE "error_expected_left_curly" "E107"
    [(source_code_span, "expected_left_curly")]
    [error "expected '{{'" [member "expected_left_curly"]];
  QLJS_ERROR_TYPE "error_expected_right_paren_for_function_call" "E141"
    [(source_code_span, "expected_right_paren");
     (source_code_span, "left_paren")]
    [error "expected ')' to close function call"
       [member "expected_right_paren"];
     note "function call started here" [member "left_paren"]];
  QLJS_ERROR_TYPE
    "error_expected_parentheses_around_do_while_condition" "E084"
    [(source_code_span, "condition")]
    [error "do-while loop needs parentheses around condition"
       [member "condition"]];
  QLJS_ERROR_TYPE
    "error_expected_parenthesis_around_do_while_condition" "E085"
    [(source_code_span, "where"); (char8, "token")]
    [error "do-while loop is missing '{1}' around condition"
       [member "where"; string8_view_of "token"]];
  QLJS_ERROR_TYPE "error_expected_parentheses_around_if_condition" "E017"
    [(source_code_span, "condition")]
    [error "if statement needs parentheses around condition"
       [member "condition"]];
  QLJS_ERROR_TYPE "error_expected_parenthesis_around_if_condition" "E018"
    [(source_code_span, "where"); (char8, "token")]
    [error "if statement is missing '{1}' around condition"
       [member "where"; string8_view_of "token"]];
  QLJS_ERROR_TYPE "error_expected_parentheses_around_switch_condition" "E091"
    [(source_code_span, "condition")]
    [error "switch statement needs parentheses around condition"
       [member "condition"]];
  QLJS_ERROR_TYPE "error_expected_parenthesis_around_switch_condition" "E092"
    [(source_code_span, "where"); (char8, "token")]
    [error "switch statement is missing '{1}' around condition"
       [member "where"; string8_view_of "token"]];
  QLJS_ERROR_TYPE "error_expected_parentheses_around_while_condition" "E087"
    [(source_code_span, "condition")]
    [error "while loop needs parentheses around condition"
       [member "condition"]];
  QLJS_ERROR_TYPE "error_expected_parenthesis_around_while_condition" "E088"
    [(source_code_span, "where"); (char8, "token")]
    [error "while loop is missing '{1}' around condition"
       [member "where"; string8_view_of "token"]];
  QLJS_ERROR_TYPE "error_expected_parentheses_around_with_expression" "E089"
    [(source_code_span, "expression")]
    [error "with statement needs parentheses around expression"
       [member "expression"]];
  QLJS_ERROR_TYPE "error_expected_parenthesis_around_with_expression" "E090"
    [(source_code_span, "where"); (char8, "token")]
    [error "with statement is missing '{1}' around expression"
       [member "where"; string8_view_of "token"]];
  QLJS_ERROR_TYPE "error_expected_variable_name_for_catch" "E135"
    [(source_code_span, "unexpected_token")]
    [error "expected variable name for 'catch'" [member "unexpected_token"]];
  QLJS_ERROR_TYPE "error_exporting_requires_default" "E067"
    [(source_code_span, "expression")]
    [error "exporting requires 'default'" [member "expression"]];
  QLJS_ERROR_TYPE "error_exporting_requires_curlies" "E066"
    [(source_code_span, "names")]
    [error "exporting requires '{{' and '}'" [member "names"]];
  QLJS_ERROR_TYPE
    "error_exporting_string_name_only_allowed_for_export_from" "E153"
    [(source_code_span, "export_name")]
    [error "forwarding exports are only allowed in export-from"
       [member "export_name"]];
  QLJS_ERROR_TYPE "error_finally_without_try" "E118"
    [(source_code_span, "finally_token")]
    [error "unexpected 'finally' without 'try'" [member "finally_token"]];
  QLJS_ERROR_TYPE "error_function_statement_not_allowed_in_body" "E148"
    [(statement_kind, "kind_of_statement");
     (source_code_span, "expected_body");
     (source_code_span, "function_keywords")]
    [error "missing body for {1:headlinese}"
       [member "expected_body"; member "kind_of_statement"];
     note "a function statement is not allowed as the body of {1:singular}"
       [member "function_keywords"; member "kind_of_statement"]];
  QLJS_ERROR_TYPE "error_generator_function_star_belongs_before_name" "E133"
    [(source_code_span, "function_name"); (source_code_span, "star")]
    [error "generator function '*' belongs before function name"
       [member "star"]];
  QLJS_ERROR_TYPE "error_in_disallowed_in_c_style_for_loop" "E108"
    [(source_code_span, "in_token")]
    [error "'in' disallowed in C-style for loop initializer"
       [member "in_token"]];
  QLJS_ERROR_TYPE "error_indexing_requires_expression" "E075"
    [(source_code_span, "squares")]
    [error "indexing requires an expression" [member "squares"]];
  QLJS_ERROR_TYPE "error_invalid_binding_in_let_statement" "E019"
    [(source_code_span, "where")]
    [error "invalid binding in let statement" [member "where"]];
  QLJS_ERROR_TYPE "error_invalid_expression_left_of_assignment" "E020"
    [(source_code_span, "where")]
    [error "invalid expression left of assignment" [member "where"]];
  QLJS_ERROR_TYPE "error_invalid_hex_escape_sequence" "E060"
    [(source_code_span, "escape_sequence")]
    [error "invalid hex escape sequence: {0}" [member "escape_sequence"]];
  QLJS_ERROR_TYPE "error_invalid_lone_literal_in_object_literal" "E021"
    [(source_code_span, "where")]
    [error "invalid lone literal in object literal" [member "where"]];
  QLJS_ERROR_TYPE "error_invalid_rhs_for_dot_operator" "E074"
    [(source_code_span, "dot")]
    [error "'.' operator needs a key name; use + to concatenate strings; use [] to access with a dynamic key"
       [member "dot"]];
  QLJS_ERROR_TYPE "error_invalid_utf_8_sequence" "E022"
    [(source_code_span, "sequence")]
    [error "invalid UTF-8 sequence" [member "sequence"]];
  QLJS_ERROR_TYPE "error_keywords_cannot_contain_escape_sequences" "E023"
    [(source_code_span, "escape_sequence")]
    [error "keywords cannot contain escape sequences"
       [member "escape_sequence"]];
  QLJS_ERROR_TYPE "error_legacy_octal_literal_may_not_be_big_int" "E032"
    [(source_code_span, "characters")]
    [error "legacy octal literal may not be BigInt" [member "characters"]];
  QLJS_ERROR_TYPE
    "error_legacy_octal_literal_may_not_contain_underscores" "E152"
    [(source_code_span, "underscores")]
    [error "legacy octal literals may not contain underscores"
       [member "underscores"]];
  QLJS_ERROR_TYPE "error_let_with_no_bindings" "E024"
    [(source_code_span, "where")]
    [error "let with no bindings" [member "where"]];
  QLJS_ERROR_TYPE "error_lexical_declaration_not_allowed_in_body" "E150"
    [(statement_kind, "kind_of_statement");
     (source_code_span, "expected_body");
     (source_code_span, "declaring_keyword")]
    [error "missing body for {1:headlinese}"
       [member "expected_body"; member "kind_of_statement"];
     note "a lexical declaration is not allowed as the body of {1:singular}"
       [member "declaring_keyword"; member "kind_of_statement"]];
  QLJS_ERROR_TYPE "error_methods_should_not_use_function_keyword" "E072"
    [(source_code_span, "function_token")]
    [error "methods should not use the 'function' keyword"
       [member "function_token"]];
  QLJS_ERROR_TYPE "error_missing_array_close" "E157"
    [(source_code_span, "left_square");
     (source_code_span, "expected_right_square")]
    [error "missing end of array; expected ']'"
       [member "expected_right_square"];
     note "array started here" [member "left_square"]];
  QLJS_ERROR_TYPE "error_missing_arrow_function_parameter_list" "E105"
    [(source_code_span, "arrow")]
    [error "missing parameters for arrow function" [member "arrow"]];
  QLJS_ERROR_TYPE "error_missing_body_for_catch_clause" "E119"
    [(source_code_span, "catch_token")]
    [error "missing body for catch clause" [member "catch_token"]];
  QLJS_ERROR_TYPE "error_missing_body_for_class" "E111"
    [(source_code_span, "class_keyword_and_name_and_heritage")]
    [error "missing body for class"
       [member "class_keyword_and_name_and_heritage"]];
  QLJS_ERROR_TYPE "error_missing_body_for_do_while_statement" "E101"
    [(source_code_span, "do_token")]
    [error "missing body for do-while loop" [member "do_token"]];
  QLJS_ERROR_TYPE "error_missing_body_for_finally_clause" "E121"
    [(source_code_span, "finally_token")]
    [error "missing body for finally clause" [member "finally_token"]];
  QLJS_ERROR_TYPE "error_missing_body_for_for_statement" "E094"
    [(source_code_span, "for_and_header")]
    [error "missing body for 'for' loop" [member "for_and_header"]];
  QLJS_ERROR_TYPE "error_missing_body_for_if_statement" "E064"
    [(source_code_span, "if_and_condition")]
    [error "missing body for 'if' statement" [member "if_and_condition"]];
  QLJS_ERROR_TYPE "error_missing_body_for_switch_statement" "E106"
    [(source_code_span, "switch_and_condition")]
    [error "missing body for 'switch' statement"
       [member "switch_and_condition"]];
  QLJS_ERROR_TYPE "error_missing_body_for_try_statement" "E120"
    [(source_code_span, "try_token")]
    [error "missing body for try statement" [member "try_token"]];
  QLJS_ERROR_TYPE "error_missing_body_for_while_statement" "E104"
    [(source_code_span, "while_and_condition")]
    [error "missing body for while loop" [member "while_and_condition"]];
  QLJS_ERROR_TYPE "error_missing_catch_or_finally_for_try_statement" "E122"
    [(source_code_span, "expected_catch_or_finally");
     (source_code_span, "try_token")]
    [error "missing catch or finally clause for try statement"
       [member "expected_catch_or_finally"];
     note "try statement starts here" [member "try_token"]];
  QLJS_ERROR_TYPE "error_missing_catch_variable_between_parentheses" "E130"
    [(source_code_span, "left_paren"); (source_code_span, "right_paren")]
    [error "missing catch variable name between parentheses"
       [span_from_to "left_paren" "right_paren"]];
  QLJS_ERROR_TYPE "error_missing_comma_between_object_literal_entries" "E025"
    [(source_code_span, "where")]
    [error "missing comma between object literal entries" [member "where"]];
  QLJS_ERROR_TYPE "error_missing_comma_between_variable_declarations" "E132"
    [(source_code_span, "expected_comma")]
    [error "missing ',' between variable declarations"
       [member "expected_comma"]];
  QLJS_ERROR_TYPE "error_missing_colon_in_conditional_expression" "E146"
    [(source_code_span, "expected_colon"); (source_code_span, "question")]
    [error "missing ':' in conditional expression" [member "expected_colon"];
     note "'?' creates a conditional expression" [member "question"]];
  QLJS_ERROR_TYPE "error_missing_condition_for_if_statement" "E138"
    [(source_code_span, "if_keyword")]
    [error "missing condition for if statement" [member "if_keyword"]];
  QLJS_ERROR_TYPE "error_missing_condition_for_while_statement" "E139"
    [(source_code_span, "while_keyword")]
    [error "missing condition for while statement" [member "while_keyword"]];
  QLJS_ERROR_TYPE "error_missing_condition_for_switch_statement" "E137"
    [(source_code_span, "switch_keyword")]
    [error "missing condition for switch statement" [member "switch_keyword"]];
  QLJS_ERROR_TYPE "error_missing_expression_between_parentheses" "E078"
    [(source_code_span, "left_paren"); (source_code_span, "right_paren")]
    [error "missing expression between parentheses"
       [span_from_to "left_paren" "right_paren"]];
  QLJS_ERROR_TYPE "error_missing_for_loop_header" "E125"
    [(source_code_span, "for_token")]
    [error "missing header and body for 'for' loop" [member "for_token"]];
  QLJS_ERROR_TYPE
    "error_missing_for_loop_rhs_or_components_after_expression" "E097"
    [(source_code_span, "header"); (source_code_span, "for_token")]
    [error "for loop needs an iterable, or condition and update clauses"
       [member "header"];
     note "use 'while' instead to loop until a condition is false"
       [member "for_token"]];
  QLJS_ERROR_TYPE
    "error_missing_for_loop_rhs_or_components_after_declaration" "E098"
    [(source_code_span, "header"); (source_code_span, "for_token")]
    [error "for loop needs an iterable, or condition and update clauses"
       [member "header"]];
  QLJS_ERROR_TYPE "error_missing_function_parameter_list" "E073"
    [(source_code_span, "function_name")]
    [error "missing function parameter list" [member "function_name"]];
  QLJS_ERROR_TYPE "error_missing_header_of_for_loop" "E096"
    [(source_code_span, "where")]
    [error "missing for loop header" [member "where"]];
  QLJS_ERROR_TYPE "error_missing_key_for_object_entry" "E154"
    [(source_code_span, "expression")]
    [error "unexpected expression; missing key for object entry"
       [member "expression"]];
  QLJS_ERROR_TYPE "error_missing_name_in_function_statement" "E061"
    [(source_code_span, "where")]
    [error "missing name in function statement" [member "where"]];
  QLJS_ERROR_TYPE "error_missing_name_in_class_statement" "E080"
    [(source_code_span, "class_keyword")]
    [error "missing name of class" [member "class_keyword"]];
  QLJS_ERROR_TYPE "error_missing_name_of_exported_class" "E081"
    [(source_code_span, "class_keyword")]
    [error "missing name of exported class" [member "class_keyword"]];
  QLJS_ERROR_TYPE "error_missing_name_of_exported_function" "E079"
    [(source_code_span, "function_keyword")]
    [error "missing name of exported function" [member "function_keyword"]];
  QLJS_ERROR_TYPE "error_missing_name_or_parentheses_for_function" "E062"
    [(source_code_span, "where"); (source_code_span, "function")]
    [error "missing name or parentheses for function" [member "where"]];
  QLJS_ERROR_TYPE "error_missing_operand_for_operator" "E026"
    [(source_code_span, "where")]
    [error "missing operand for operator" [member "where"]];
  QLJS_ERROR_TYPE
    "error_missing_operator_between_expression_and_arrow_function" "E063"
    [(source_code_span, "where")]
    [error "missing operator between expression and arrow function"
       [member "where"]];
  QLJS_ERROR_TYPE "error_missing_property_name_for_dot_operator" "E142"
    [(source_code_span, "dot")]
    [error "missing property name after '.' operator" [member "dot"]];
  QLJS_ERROR_TYPE "error_missing_semicolon_after_statement" "E027"
    [(source_code_span, "where")]
    [error "missing semicolon after statement" [member "where"]];
  QLJS_ERROR_TYPE
    "error_missing_semicolon_between_for_loop_condition_and_update" "E100"
    [(source_code_span, "expected_semicolon")]
    [error "missing semicolon between condition and update parts of for loop"
       [member "expected_semicolon"]];
  QLJS_ERROR_TYPE
    "error_missing_semicolon_between_for_loop_init_and_condition" "E099"
    [(source_code_span, "expected_semicolon")]
    [error "missing semicolon between init and condition parts of for loop"
       [member "expected_semicolon"]];
  QLJS_ERROR_TYPE "error_missing_token_after_export" "E113"
    [(source_code_span, "export_token")]
    [error "incomplete export; expected 'export default ...' or 'export {{name}' or 'export * from ...' or 'export class' or 'export function' or 'export let'"
       [member "export_token"]];
  QLJS_ERROR_TYPE "error_missing_value_for_object_literal_entry" "E083"
    [(source_code_span, "key")]
    [error "missing value for object property" [member "key"]];
  QLJS_ERROR_TYPE "error_missing_variable_name_in_declaration" "E123"
    [(source_code_span, "equal_token")]
    [error "missing variable name" [member "equal_token"]];
  QLJS_ERROR_TYPE
    "error_missing_while_and_condition_for_do_while_statement" "E103"
    [(source_code_span, "do_token"); (source_code_span, "expected_while")]
    [error "missing 'while (condition)' for do-while statement"
       [member "expected_while"];
     note "do-while statement starts here" [member "do_token"]];
  QLJS_ERROR_TYPE
    "error_number_literal_contains_consecutive_underscores" "E028"
    [(source_code_span, "underscores")]
    [error "number literal contains consecutive underscores"
       [member "underscores"]];
  QLJS_ERROR_TYPE "error_number_literal_contains_trailing_underscores" "E029"
    [(source_code_span, "underscores")]
    [error "number literal contains trailing underscore(s)"
       [member "underscores"]];
  QLJS_ERROR_TYPE "error_octal_literal_may_not_have_exponent" "E030"
    [(source_code_span, "characters")]
    [error "octal literal may not have exponent" [member "characters"]];
  QLJS_ERROR_TYPE "error_octal_literal_may_not_have_decimal" "E031"
    [(source_code_span, "characters")]
    [error "octal literal may not have decimal" [member "characters"]];
  QLJS_ERROR_TYPE
    "error_private_properties_are_not_allowed_in_object_literals" "E156"
    [(identifier, "private_identifier")]
    [error "private properties are not allowed in object literals"
       [member "private_identifier"]];
  QLJS_ERROR_TYPE "error_redeclaration_of_global_variable" "E033"
    [(identifier, "redeclaration")]
    [error "redeclaration of global variable" [member "redeclaration"]];
  QLJS_ERROR_TYPE "error_redeclaration_of_variable" "E034"
    [(identifier, "redeclaration"); (identifier, "original_declaration")]
    [error "redeclaration of variable: {0}" [member "redeclaration"];
     note "variable already declared here" [member "original_declaration"]];
  QLJS_ERROR_TYPE
    "error_regexp_literal_flags_cannot_contain_unicode_escapes" "E035"
    [(source_code_span, "escape_sequence")]
    [error "RegExp literal cannot contain Unicode escapes"
       [member "escape_sequence"]];
  QLJS_ERROR_TYPE "error_stray_comma_in_let_statement" "E036"
    [(source_code_span, "where")]
    [error "stray comma in let statement" [member "where"]];
  QLJS_ERROR_TYPE "error_typescript_enum_not_implemented" "E127"
    [(source_code_span, "enum_keyword")]
    [error "TypeScript's 'enum' feature is not yet implemented by quick-lint-js"
       [member "enum_keyword"]];
  QLJS_ERROR_TYPE "error_unclosed_block_comment" "E037"
    [(source_code_span, "comment_open")]
    [error "unclosed block comment" [member "comment_open"]];
  QLJS_ERROR_TYPE "error_unclosed_code_block" "E134"
    [(source_code_span, "block_open")]
    [error "unclosed code block; expected '}' by end of file"
       [member "block_open"]];
  QLJS_ERROR_TYPE "error_unclosed_identifier_escape_sequence" "E038"
    [(source_code_span, "escape_sequence")]
    [error "unclosed identifier escape sequence" [member "escape_sequence"]];
  QLJS_ERROR_TYPE "error_unclosed_object_literal" "E161"
    [(source_code_span, "object_open");
     (source_code_span, "expected_object_close")]
    [error "unclosed object literal; expected '}'"
       [member "expected_object_close"];
     note "object literal started here" [member "object_open"]];
  QLJS_ERROR_TYPE "error_unclosed_regexp_literal" "E039"
    [(source_code_span, "regexp_literal")]
    [error "unclosed regexp literal" [member "regexp_literal"]];
  QLJS_ERROR_TYPE "error_unclosed_string_literal" "E040"
    [(source_code_span, "string_literal")]
    [error "unclosed string literal" [member "string_literal"]];
  QLJS_ERROR_TYPE "error_unclosed_template" "E041"
    [(source_code_span, "incomplete_template")]
    [error "unclosed template" [member "incomplete_template"]];
  QLJS_ERROR_TYPE "error_unexpected_at_character" "E042"
    [(source_code_span, "character")]
    [error "unexpected '@'" [member "character"]];
  QLJS_ERROR_TYPE "error_unexpected_arrow_after_expression" "E160"
    [(source_code_span, "arrow"); (source_code_span, "expression")]
    [error "unexpected '{0}'" [member "arrow"];
     note "expected parameter for arrow function, but got an expression instead"
       [member "expression"]];
  QLJS_ERROR_TYPE "error_unexpected_arrow_after_literal" "E158"
    [(source_code_span, "arrow"); (source_code_span, "literal_parameter")]
    [error "unexpected '{0}'" [member "arrow"];
     note "expected parameter for arrow function, but got a literal instead"
       [member "literal_parameter"]];
  QLJS_ERROR_TYPE "error_unexpected_backslash_in_identifier" "E043"
    [(source_code_span, "backslash")]
    [error "unexpected '\' in identifier" [member "backslash"]];
  QLJS_ERROR_TYPE "error_unexpected_case_outside_switch_statement" "E115"
    [(source_code_span, "case_token")]
    [error "unexpected 'case' outside switch statement" [member "case_token"]];
  QLJS_ERROR_TYPE "error_unexpected_characters_in_number" "E044"
    [(source_code_span, "characters")]
    [error "unexpected characters in number literal" [member "characters"]];
  QLJS_ERROR_TYPE "error_unexpected_control_character" "E045"
    [(source_code_span, "character")]
    [error "unexpected control character" [member "character"]];
  QLJS_ERROR_TYPE "error_unexpected_characters_in_binary_number" "E046"
    [(source_code_span, "characters")]
    [error "unexpected characters in binary literal" [member "characters"]];
  QLJS_ERROR_TYPE "error_unexpected_characters_in_octal_number" "E047"
    [(source_code_span, "characters")]
    [error "unexpected characters in octal literal" [member "characters"]];
  QLJS_ERROR_TYPE "error_unexpected_characters_in_hex_number" "E048"
    [(source_code_span, "characters")]
    [error "unexpected characters in hex literal" [member "characters"]];
  QLJS_ERROR_TYPE "error_unexpected_default_outside_switch_statement" "E116"
    [(source_code_span, "default_token")]
    [error "unexpected 'default' outside switch statement"
       [member "default_token"]];
  QLJS_ERROR_TYPE "error_unexpected_literal_in_parameter_list" "E159"
    [(source_code_span, "literal")]
    [error "unexpected literal in parameter list; expected parameter name"
       [member "literal"]];
  QLJS_ERROR_TYPE "error_unexpected_semicolon_in_c_style_for_loop" "E102"
    [(source_code_span, "semicolon")]
    [error "C-style for loops have only three semicolon-separated components"
       [member "semicolon"]];
  QLJS_ERROR_TYPE "error_unexpected_semicolon_in_for_in_loop" "E110"
    [(source_code_span, "semicolon")]
    [error "for-in loop expression cannot have semicolons"
       [member "semicolon"]];
  QLJS_ERROR_TYPE "error_unexpected_semicolon_in_for_of_loop" "E109"
    [(source_code_span, "semicolon")]
    [error "for-of loop expression cannot have semicolons"
       [member "semicolon"]];
  QLJS_ERROR_TYPE "error_no_digits_in_binary_number" "E049"
    [(source_code_span, "characters")]
    [error "binary number literal has no digits" [member "characters"]];
  QLJS_ERROR_TYPE "error_no_digits_in_hex_number" "E050"
    [(source_code_span, "characters")]
    [error "hex number literal has no digits" [member "characters"]];
  QLJS_ERROR_TYPE "error_no_digits_in_octal_number" "E051"
    [(source_code_span, "characters")]
    [error "octal number literal has no digits" [member "characters"]];
  QLJS_ERROR_TYPE "error_unexpected_hash_character" "E052"
    [(source_code_span, "where")]
    [error "unexpected '#'" [member "where"]];
  QLJS_ERROR_TYPE "error_unexpected_identifier" "E053"
    [(source_code_span, "where")]
    [error "unexpected identifier" [member "where"]];
  QLJS_ERROR_TYPE "error_unexpected_identifier_in_expression" "E147"
    [(identifier, "unexpected")]
    [error "unexpected identifier in expression; missing operator before"
       [member "unexpected"]];
  QLJS_ERROR_TYPE "error_unexpected_token" "E054"
    [(source_code_span, "token")]
    [error "unexpected token" [member "token"]];
  QLJS_ERROR_TYPE "error_unexpected_token_after_export" "E112"
    [(source_code_span, "unexpected_token")]
    [error "unexpected token in export; expected 'export default ...' or 'export {{name}' or 'export * from ...' or 'export class' or 'export function' or 'export let'"
       [member "unexpected_token"]];
  QLJS_ERROR_TYPE "error_unexpected_token_in_variable_declaration" "E114"
    [(source_code_span, "unexpected_token")]
    [error "unexpected token in variable declaration; expected variable name"
       [member "unexpected_token"]];
  QLJS_ERROR_TYPE "error_unmatched_indexing_bracket" "E055"
    [(source_code_span, "left_square")]
    [error "unmatched indexing bracket" [member "left_square"]];
  QLJS_ERROR_TYPE "error_unmatched_parenthesis" "E056"
    [(source_code_span, "where")]
    [error "unmatched parenthesis" [member "where"]];
  QLJS_ERROR_TYPE "error_unmatched_right_curly" "E143"
    [(source_code_span, "right_curly")]
    [error "unmatched '}'" [member "right_curly"]];
  QLJS_ERROR_TYPE "error_use_of_undeclared_variable" "E057"
    [(identifier, "name")]
    [warning "use of undeclared variable: {0}" [member "name"]];
  QLJS_ERROR_TYPE "error_variable_used_before_declaration" "E058"
    [(identifier, "use"); (identifier, "declaration")]
    [error "variable used before declaration: {0}" [member "use"];
     note "variable declared here" [member "declaration"]];
  QLJS_ERROR_TYPE "error_invalid_break" "E200"
    [(source_code_span, "break_statement")]
    [error "break can only be used inside of a loop or switch"
       [member "break_statement"]];
  QLJS_ERROR_TYPE "error_invalid_continue" "E201"
    [(source_code_span, "continue_statement")]
    [error "continue can only be used inside of a loop"
       [member "continue_statement"]]
].

(** *** Diagnostic values *)

(** Modelled from the spec: the values of the member types (location.h,
    lex.h and language.h are not among the sources).  A span is a pair of
    byte offsets into the analysed text, an identifier is a span with its
    text, the two enums are kept as their enumerator numbers. *)
Record span : Type := { span_begin : Z; span_end : Z }.

Inductive member_value : Type :=
| identifier_value (where_ : span) (normalized_name : string)
| source_code_span_value (where_ : span)
| variable_kind_value (enumerator : Z)
| statement_kind_value (enumerator : Z)
| char8_value (c : ascii).

Definition type_of (v : member_value) : member_type :=
  match v with
  | identifier_value _ _ => identifier
  | source_code_span_value _ => source_code_span
  | variable_kind_value _ => variable_kind
  | statement_kind_value _ => statement_kind
  | char8_value _ => char8
  end.

Definition member_type_eqb (a b : member_type) : bool :=
  match a, b with
  | identifier, identifier
  | source_code_span, source_code_span
  | variable_kind, variable_kind
  | statement_kind, statement_kind
  | char8, char8 => true
  | _, _ => false
  end.

(** [struct name struct_body;]: a value of the struct declared for an
    entry is the entry together with one value per declared member, in
    declaration order. *)
Record diagnostic : Type := {
  kind : error_type;
  members : list member_value
}.

Fixpoint members_match (decls : list (member_type * string))
    (vs : list member_value) : bool :=
  match decls, vs with
  | [], [] => true
  | (ty, _) :: decls', v :: vs' =>
      member_type_eqb (type_of v) ty && members_match decls' vs'
  | _, _ => false
  end.

Definition well_formed (d : diagnostic) : bool :=
  members_match (struct_body (kind d)) (members d).

(** *** Reporters *)

Section Reporter.

(** Everything a reporter may touch when it reports: its own data
    members, an output stream, a collected list. *)
Variable W : Type.

(** A reporter class is its set of [report] overloads, one per struct,
    keyed by the struct's name. *)
Definition overload : Type := string * (diagnostic -> W -> W).
Definition reporter : Type := list overload.

(** [class error_reporter]: the X-macro declares
    [virtual void report(name) = 0;] once per entry. *)
Definition error_reporter : list string :=
  map (fun K => name K) QLJS_X_ERROR_TYPES.

(** [class null_error_reporter]: the X-macro defines
    [void report(name) override {}] once per entry. *)
Definition null_error_reporter : reporter :=
  map (fun K => (name K, fun (_ : diagnostic) (w : W) => w))
      QLJS_X_ERROR_TYPES.

(** [r.report(d)]: overload resolution on the static type of [d].
    [None] stands for a call that has no viable overload. *)
Definition report (r : reporter) (d : diagnostic) (w : W) : option W :=
  match find (fun o => String.eqb (fst o) (name (kind d))) r with
  | Some o => Some (snd o d w)
  | None => None
  end.

(** Reporting a sequence of diagnostics, one call after the other. *)
Fixpoint report_all (r : reporter) (ds : list diagnostic) (w : W)
    : option W :=
  match ds with
  | [] => Some w
  | d :: ds' =>
      match report r d w with
      | Some w' => report_all r ds' w'
      | None => None
      end
  end.

End Reporter.

Arguments null_error_reporter {W}.
Arguments report {W} r d w.
Arguments report_all {W} r ds w.

(** *** Static shape of the table *)

Definition is_note (m : message) : bool :=
  match m with note _ _ => true | _ => false end.

Definition is_primary (m : message) : bool := negb (is_note m).

Definition args_of (m : message) : list format_arg :=
  match m with
  | error _ a | warning _ a | note _ a => a
  end.

Definition declared_notes (K : error_type) : list message :=
  filter is_note (format_call K).

(** The type a struct declares for a member name, if it declares it. *)
Fixpoint declared_type (decls : list (member_type * string)) (n : string)
    : option member_type :=
  match decls with
  | [] => None
  | (ty, n') :: decls' =>
      if String.eqb n' n then Some ty else declared_type decls' n
  end.

(** An argument is bound to the struct when every member it names is
    declared, with the type the expression needs: [.begin()] and
    [.end()] are taken of spans, [string8_view(&c, 1)] of a [char8]. *)
Definition arg_bound (decls : list (member_type * string)) (a : format_arg)
    : bool :=
  match a with
  | member n =>
      match declared_type decls n with Some _ => true | None => false end
  | span_from_to f l =>
      match declared_type decls f, declared_type decls l with
      | Some source_code_span, Some source_code_span => true
      | _, _ => false
      end
  | string8_view_of n =>
      match declared_type decls n with Some char8 => true | _ => false end
  end.

(** The members an argument names. *)
Definition names_in (a : format_arg) : list string :=
  match a with
  | member n => [n]
  | span_from_to f l => [f; l]
  | string8_view_of n => [n]
  end.

(** The format chain starts with its one [.error] or [.warning] call and
    continues with [.note] calls only. *)
Definition one_primary_then_notes (K : error_type) : bool :=
  match format_call K with
  | [] => false
  | m :: rest => is_primary m && forallb is_note rest
  end.

(** *** Formatting *)

(** Modelled from the spec: the formatting service (the formatter that
    consumes [format_call] is not among the sources).  Per the spec it
    recovers from a diagnostic value the primary message and the notes,
    each with its arguments interpolated from the value's members; an
    argument is a member, a span, or a string. *)
Inductive argument_value : Type :=
| of_member (v : member_value)
| of_span (s : span)
| of_string8_view (s : string).

Record formatted_message : Type := {
  template : string;
  interpolated : list argument_value
}.

Record formatted : Type := {
  primary_messages : list formatted_message;
  note_messages : list formatted_message
}.

(** The value a diagnostic holds for the member called [n]. *)
Fixpoint member_named (decls : list (member_type * string))
    (vs : list member_value) (n : string) : option member_value :=
  match decls, vs with
  | (_, n') :: decls', v :: vs' =>
      if String.eqb n' n then Some v else member_named decls' vs' n
  | _, _ => None
  end.

(** Modelled from the spec: interpolating one argument from the value's
    members.  [None] stands for an argument that is not an expression
    over the struct's members. *)
Definition eval_arg (d : diagnostic) (a : format_arg)
    : option argument_value :=
  let get := member_named (struct_body (kind d)) (members d) in
  match a with
  | member n =>
      match get n with Some v => Some (of_member v) | None => None end
  | span_from_to f l =>
      match get f, get l with
      | Some (source_code_span_value sf), Some (source_code_span_value sl) =>
          Some (of_span {| span_begin := span_begin sf;
                           span_end := span_end sl |})
      | _, _ => None
      end
  | string8_view_of n =>
      match get n with
      | Some (char8_value c) => Some (of_string8_view (String c EmptyString))
      | _ => None
      end
  end.

Fixpoint eval_args (d : diagnostic) (args : list format_arg)
    : option (list argument_value) :=
  match args with
  | [] => Some []
  | a :: args' =>
      match eval_arg d a, eval_args d args' with
      | Some v, Some vs => Some (v :: vs)
      | _, _ => None
      end
  end.

Definition text_of (m : message) : string :=
  match m with
  | error t _ | warning t _ | note t _ => t
  end.

(** Modelled from the spec: running the format chain, call by call;
    [.error] and [.warning] give a primary message, [.note] a note. *)
Fixpoint format_messages (d : diagnostic) (ms : list message)
    : option formatted :=
  match ms with
  | [] => Some {| primary_messages := []; note_messages := [] |}
  | m :: ms' =>
      match eval_args d (args_of m), format_messages d ms' with
      | Some vs, Some out =>
          let fm := {| template := text_of m; interpolated := vs |} in
          Some (if is_note m
                then {| primary_messages := primary_messages out;
                        note_messages := fm :: note_messages out |}
                else {| primary_messages := fm :: primary_messages out;
                        note_messages := note_messages out |})
      | _, _ => None
      end
  end.

(** Modelled from the spec: what the formatting service recovers from a
    diagnostic value, by the format chain of its kind. *)
Definition format (d : diagnostic) : option formatted :=
  format_messages d (format_call (kind d)).

(** *** Checking the table *)

(** No string occurs twice in the list. *)
Fixpoint distinct (l : list string) : bool :=
  match l with
  | [] => true
  | x :: l' => negb (existsb (String.eqb x) l') && distinct l'
  end.

(** Every argument of every message of [K] is bound to [K]'s struct. *)
Definition args_bound (K : error_type) : bool :=
  forallb (fun m => forallb (arg_bound (struct_body K)) (args_of m))
          (format_call K).

End Error.

(** ** The event loop header *)

Module Event_loop.

Local Open Scope list_scope.

(** *** Build configuration *)

(** The two preprocessor configurations under which [event_loop] builds:
    [posix] is [QLJS_HAVE_POLL] without [_WIN32], [windows] is [_WIN32]
    without [QLJS_HAVE_POLL].  Without either, [run] is
    [#error "Unsupported platform"]; with both, [pollfds] has no
    element. *)
Inductive platform : Type := posix | windows.

(** The remaining symbols the header tests or uses and which its sources
    do not fix: whether [<unistd.h>] was found, whether [QLJS_ASSERT]
    checks its condition, and the values of [EAGAIN], [POLLIN] and
    [POLLERR]. *)
Record build : Type := {
  target : platform;
  QLJS_HAVE_UNISTD_H : bool;
  assertions_enabled : bool;
  EAGAIN : Z;
  POLLIN : Z;
  POLLERR : Z
}.

Definition QLJS_HAVE_POLL (cfg : build) : bool :=
  match target cfg with posix => true | windows => false end.

(** [#if defined(_WIN32)] 0 [#else] 1 *)
Definition QLJS_EVENT_LOOP_READ_PIPE_NON_BLOCKING (cfg : build) : bool :=
  match target cfg with windows => false | posix => true end.

(** *** The world outside the loop *)

(** [file_read_result], as far as [read_from_pipe] looks at it. *)
Record file_read_result : Type := {
  at_end_of_file : bool;
  bytes_read : Z;
  error_message : option string
}.

(** What one [pipe.read(buffer.data(), buffer.size())] answers: the
    result, the bytes now in the 1024-byte [buffer], and [errno] after
    the call. *)
Record read_event : Type := {
  read_result : file_read_result;
  buffer : string;
  errno : Z
}.

(** What one [::poll(pollfds, 1, -1)] answers: its return value and
    [pollfds[0].revents]. *)
Record poll_event : Type := {
  rc : Z;
  revents : Z
}.

(** The pipe of the delegate and the answers the operating system is
    going to give to the loop's calls, in order.  A world is a finite
    scenario: a call for which it has no answer left does not come back
    (nothing more is written to the pipe, and it is not closed), and the
    run goes no further. *)
Record world : Type := {
  is_pipe_non_blocking : bool;
  reads : list read_event;
  polls : list poll_event
}.

(** What the loop did, in order. *)
Inductive action : Type :=
| did_read (ev : read_event)
| did_append (data : string)
| did_poll (ev : poll_event).

(** Why the process was terminated. *)
Inductive fatal : Type :=
| assertion_failed     (* QLJS_ASSERT *)
| unimplemented        (* QLJS_UNIMPLEMENTED *)
| unreachable.         (* QLJS_UNREACHABLE *)

(** How a computation ends: with a value, by terminating the process,
    inside a call for which the world has no answer, or (for [run_loop]
    only) out of fuel. *)
Inductive reply (A : Type) : Type :=
| value (a : A) (w : world)
| abort (why : fatal)
| blocked
| out_of_fuel.

Arguments value {A} a w.
Arguments abort {A} why.
Arguments blocked {A}.
Arguments out_of_fuel {A}.

(** Computations: they consume answers of the world and emit actions. *)
Definition io (A : Type) : Type := world -> list action * reply A.

Definition ret {A} (a : A) : io A := fun w => ([], value a w).

Definition bind {A B} (m : io A) (k : A -> io B) : io B := fun w =>
  match m w with
  | (t, value a w') => let (t', r) := k a w' in (t ++ t', r)
  | (t, abort why) => (t, abort why)
  | (t, blocked) => (t, blocked)
  | (t, out_of_fuel) => (t, out_of_fuel)
  end.

Notation "x <- m ;; k" := (bind m (fun x => k))
  (at level 61, m at next level, right associativity).
Notation "m ;; k" := (bind m (fun _ => k))
  (at level 61, right associativity).

(** [string8_view(data, size)]: the first [size] characters at [data]. *)
Fixpoint string8_view (data : string) (size : nat) : string :=
  match size, data with
  | S size', String c data' => String c (string8_view data' size')
  | _, _ => EmptyString
  end.

(** Modelled from the spec: [narrow_cast<std::size_t>] (narrow-cast.h is
    not among the sources); the chunk is forwarded verbatim, so the cast
    keeps the byte count a successful read returned, which is not
    negative. *)
Definition narrow_cast (x : Z) : nat := Z.to_nat x.

(** [std::optional::has_value] *)
Definition has_value {A} (o : option A) : bool :=
  match o with Some _ => true | None => false end.

(** The data members of [event_loop]. *)
Record event_loop : Type := { done_ : bool }.

(** [bool done_ = false;] *)
Definition new_event_loop : event_loop := {| done_ := false |}.

Section Build.

Variable cfg : build.

Definition QLJS_ASSERT (condition : bool) : io unit :=
  if assertions_enabled cfg && negb condition
  then fun _ => ([], abort assertion_failed)
  else ret tt.

Definition QLJS_UNIMPLEMENTED {A} : io A :=
  fun _ => ([], abort unimplemented).

Definition QLJS_UNREACHABLE {A} : io A :=
  fun _ => ([], abort unreachable).

(** [this->const_derived().get_readable_pipe().is_pipe_non_blocking()] *)
Definition pipe_is_non_blocking : io bool :=
  fun w => ([], value (is_pipe_non_blocking w) w).

(** [pipe.read(buffer.data(), buffer.size())] *)
Definition pipe_read : io read_event := fun w =>
  match reads w with
  | [] => ([], blocked)
  | ev :: rest =>
      ([did_read ev],
       value ev {| is_pipe_non_blocking := is_pipe_non_blocking w;
                   reads := rest;
                   polls := polls w |})
  end.

(** [::poll(pollfds, std::size(pollfds), /*timeout=*/-1)] *)
Definition poll : io poll_event := fun w =>
  match polls w with
  | [] => ([], blocked)
  | ev :: rest =>
      ([did_poll ev],
       value ev {| is_pipe_non_blocking := is_pipe_non_blocking w;
                   reads := reads w;
                   polls := rest |})
  end.

(** [this->derived().append(data)] *)
Definition append (data : string) : io unit :=
  fun w => ([did_append data], value tt w).

(** *** The loop *)

Definition read_from_pipe (this : event_loop) : io event_loop :=
  non_blocking <- pipe_is_non_blocking ;;
  QLJS_ASSERT (if QLJS_EVENT_LOOP_READ_PIPE_NON_BLOCKING cfg
               then non_blocking else negb non_blocking) ;;
  ev <- pipe_read ;;
  let read_result := read_result ev in
  if at_end_of_file read_result then
    ret {| done_ := true |}
  else if has_value (error_message read_result) then
    if QLJS_HAVE_UNISTD_H cfg && (errno ev =? EAGAIN cfg)%Z then
      if QLJS_EVENT_LOOP_READ_PIPE_NON_BLOCKING cfg
      then ret this
      else QLJS_UNREACHABLE
    else QLJS_UNIMPLEMENTED
  else
    QLJS_ASSERT (negb (bytes_read read_result =? 0)%Z) ;;
    append (string8_view (buffer ev)
                         (narrow_cast (bytes_read read_result))) ;;
    ret this.

(** The part of the body of [run]'s loop after the [break].  With [poll]
    the array [pollfds] has its one element, the pipe, so the assertion
    on its size holds. *)
Definition wait_for_pipe : io unit :=
  match target cfg with
  | posix =>
      ev <- poll ;;
      if (rc ev =? -1)%Z then QLJS_UNIMPLEMENTED
      else
        QLJS_ASSERT (rc ev >? 0)%Z ;;
        if negb (Z.land (revents ev) (POLLIN cfg) =? 0)%Z then ret tt
        else if negb (Z.land (revents ev) (POLLERR cfg) =? 0)%Z
             then QLJS_UNIMPLEMENTED
             else ret tt
  | windows => ret tt  (* Nothing to wait for. *)
  end.

Fixpoint run_loop (fuel : nat) (this : event_loop) : io event_loop :=
  match fuel with
  | O => fun _ => ([], out_of_fuel)
  | S fuel' =>
      if done_ this then ret this
      else
        this' <- read_from_pipe this ;;
        if done_ this' then ret this'
        else wait_for_pipe ;; run_loop fuel' this'
  end.

(** [run()]: every turn of the loop that does not leave it has taken
    one answer from [reads], so one more turn than there are answers
    is enough. *)
Definition run (this : event_loop) : io event_loop :=
  fun w => run_loop (S (List.length (reads w))) this w.

End Build.

(** *** Reading a run *)

Definition trace (cfg : build) (this : event_loop) (w : world)
    : list action :=
  fst (run cfg this w).

Definition outcome (cfg : build) (this : event_loop) (w : world)
    : reply event_loop :=
  snd (run cfg this w).

Definition returned {A} (r : reply A) : bool :=
  match r with value _ _ => true | _ => false end.

(** The two states of the loop, read off its completion flag. *)
Inductive state : Type := RUNNING | DONE.

Definition state_of (this : event_loop) : state :=
  if done_ this then DONE else RUNNING.

(** The delegate's pipe is in the mode the build expects. *)
Definition pipe_mode_matches (cfg : build) (w : world) : bool :=
  Bool.eqb (is_pipe_non_blocking w)
           (QLJS_EVENT_LOOP_READ_PIPE_NON_BLOCKING cfg).

(** The answers [pipe.read] gave, in call order. *)
Fixpoint reads_in (t : list action) : list read_event :=
  match t with
  | [] => []
  | did_read ev :: t' => ev :: reads_in t'
  | _ :: t' => reads_in t'
  end.

(** The chunks [append] was called with, in call order. *)
Fixpoint appended (t : list action) : list string :=
  match t with
  | [] => []
  | did_append data :: t' => data :: appended t'
  | _ :: t' => appended t'
  end.

(** The chunk a read left in the buffer. *)
Definition chunk_of (ev : read_event) : string :=
  string8_view (buffer ev) (narrow_cast (bytes_read (read_result ev))).

Definition is_end_of_file (ev : read_event) : bool :=
  at_end_of_file (read_result ev).

(** A failed read: not at end of file, with an error message. *)
Definition is_failure (ev : read_event) : bool :=
  negb (at_end_of_file (read_result ev))
  && has_value (error_message (read_result ev)).

(** The retryable condition as the build recognises it. *)
Definition is_retry (cfg : build) (ev : read_event) : bool :=
  is_failure ev && QLJS_HAVE_UNISTD_H cfg && (errno ev =? EAGAIN cfg)%Z.

(** A read that delivered bytes: neither at end of file nor failed. *)
Definition is_data (ev : read_event) : bool :=
  negb (at_end_of_file (read_result ev))
  && negb (has_value (error_message (read_result ev))).

(** A readiness wait after which [run] goes on to the next read. *)
Definition poll_succeeds (cfg : build) (ev : poll_event) : bool :=
  negb (rc ev =? -1)%Z
  && (negb (assertions_enabled cfg) || (rc ev >? 0)%Z)
  && (negb (Z.land (revents ev) (POLLIN cfg) =? 0)%Z
      || (Z.land (revents ev) (POLLERR cfg) =? 0)%Z).

(** Answers of a pipe, for examples. *)
Definition read_chunk (chunk : string) : read_event :=
  {| read_result := {| at_end_of_file := false;
                       bytes_read := Z.of_nat (String.length chunk);
                       error_message := None |};
     buffer := chunk;
     errno := 0 |}.

Definition read_end_of_file : read_event :=
  {| read_result := {| at_end_of_file := true;
                       bytes_read := 0;
                       error_message := None |};
     buffer := EmptyString;
     errno := 0 |}.

Definition read_error (message : string) (e : Z) : read_event :=
  {| read_result := {| at_end_of_file := false;
                       bytes_read := 0;
                       error_message := Some message |};
     buffer := EmptyString;
     errno := e |}.

(** Linux values of the constants. *)
Definition linux (assertions : bool) : build :=
  {| target := posix; QLJS_HAVE_UNISTD_H := true;
     assertions_enabled := assertions;
     EAGAIN := 11; POLLIN := 1; POLLERR := 8 |}.

Definition win32 (assertions : bool) : build :=
  {| target := windows; QLJS_HAVE_UNISTD_H := false;
     assertions_enabled := assertions;
     EAGAIN := 11; POLLIN := 1; POLLERR := 8 |}.

(** One descriptor ready, readable. *)
Definition pollin : poll_event := {| rc := 1; revents := 1 |}.

(** *** Conditions on the answers of the world *)

(** A read that delivered at least one byte, all of them in the buffer. *)
Definition carries_bytes (ev : read_event) : bool :=
  is_data ev
  && (0 <? bytes_read (read_result ev))%Z
  && (bytes_read (read_result ev) <=? Z.of_nat (String.length (buffer ev)))%Z.

(** The first [n] readiness waits have an answer and succeed; a build
    without [poll] does not wait. *)
Definition waits_succeed (cfg : build) (n : nat) (ps : list poll_event)
    : bool :=
  match target cfg with
  | windows => true
  | posix =>
      (n <=? List.length ps)%nat && forallb (poll_succeeds cfg) (firstn n ps)
  end.

(** *** One turn of the loop *)

(** The definitions from here to the end of the module restate the code
    above by cases; they serve the proofs, which first show that they
    agree with [read_from_pipe], [wait_for_pipe] and [run]. *)

(** What [read_from_pipe] makes of an answer of the pipe. *)
Inductive verdict : Type :=
| stop_done
| carry_on (forwarded : list action)
| die (why : fatal).

Definition verdict_of (cfg : build) (ev : read_event) : verdict :=
  if is_end_of_file ev then stop_done
  else if has_value (error_message (read_result ev)) then
    if QLJS_HAVE_UNISTD_H cfg && (errno ev =? EAGAIN cfg)%Z then
      if QLJS_EVENT_LOOP_READ_PIPE_NON_BLOCKING cfg
      then carry_on [] else die unreachable
    else die unimplemented
  else if assertions_enabled cfg && (bytes_read (read_result ev) =? 0)%Z
       then die assertion_failed
       else carry_on [did_append (chunk_of ev)].

(** What [run] makes of an answer of [poll]: [None] when it goes on. *)
Definition poll_verdict_of (cfg : build) (ev : poll_event) : option fatal :=
  if (rc ev =? -1)%Z then Some unimplemented
  else if assertions_enabled cfg && negb (rc ev >? 0)%Z
       then Some assertion_failed
  else if negb (Z.land (revents ev) (POLLIN cfg) =? 0)%Z then None
  else if negb (Z.land (revents ev) (POLLERR cfg) =? 0)%Z
       then Some unimplemented
       else None.

(** The first assertion of [read_from_pipe] lets the call through. *)
Definition mode_assertion_passes (cfg : build) (w : world) : bool :=
  negb (assertions_enabled cfg) || pipe_mode_matches cfg w.

Definition after_read (w : world) (rest : list read_event) : world :=
  {| is_pipe_non_blocking := is_pipe_non_blocking w;
     reads := rest;
     polls := polls w |}.

Definition after_poll (w : world) (rest : list poll_event) : world :=
  {| is_pipe_non_blocking := is_pipe_non_blocking w;
     reads := reads w;
     polls := rest |}.

(** *** The runs of the loop, as a relation *)

(** [Runs cfg this w t r]: started in state [this] against the world [w],
    [run] does [t] and ends as [r]. *)
Inductive Runs (cfg : build)
  : event_loop -> world -> list action -> reply event_loop -> Prop :=
| Runs_done this w :
    done_ this = true ->
    Runs cfg this w [] (value this w)
| Runs_wrong_mode this w :
    done_ this = false ->
    mode_assertion_passes cfg w = false ->
    Runs cfg this w [] (abort assertion_failed)
| Runs_no_answer this w :
    done_ this = false ->
    mode_assertion_passes cfg w = true ->
    reads w = [] ->
    Runs cfg this w [] blocked
| Runs_end_of_file this w ev rest :
    done_ this = false ->
    mode_assertion_passes cfg w = true ->
    reads w = ev :: rest ->
    verdict_of cfg ev = stop_done ->
    Runs cfg this w [did_read ev]
      (value {| done_ := true |} (after_read w rest))
| Runs_die this w ev rest why :
    done_ this = false ->
    mode_assertion_passes cfg w = true ->
    reads w = ev :: rest ->
    verdict_of cfg ev = die why ->
    Runs cfg this w [did_read ev] (abort why)
| Runs_no_poll_answer this w ev rest fw :
    done_ this = false ->
    mode_assertion_passes cfg w = true ->
    reads w = ev :: rest ->
    verdict_of cfg ev = carry_on fw ->
    target cfg = posix ->
    polls w = [] ->
    Runs cfg this w (did_read ev :: fw) blocked
| Runs_poll_dies this w ev rest fw p ps why :
    done_ this = false ->
    mode_assertion_passes cfg w = true ->
    reads w = ev :: rest ->
    verdict_of cfg ev = carry_on fw ->
    target cfg = posix ->
    polls w = p :: ps ->
    poll_verdict_of cfg p = Some why ->
    Runs cfg this w (did_read ev :: fw ++ [did_poll p]) (abort why)
| Runs_poll_on this w ev rest fw p ps t r :
    done_ this = false ->
    mode_assertion_passes cfg w = true ->
    reads w = ev :: rest ->
    verdict_of cfg ev = carry_on fw ->
    target cfg = posix ->
    polls w = p :: ps ->
    poll_verdict_of cfg p = None ->
    Runs cfg this (after_poll (after_read w rest) ps) t r ->
    Runs cfg this w (did_read ev :: fw ++ did_poll p :: t) r
| Runs_on_windows this w ev rest fw t r :
    done_ this = false ->
    mode_assertion_passes cfg w = true ->
    reads w = ev :: rest ->
    verdict_of cfg ev = carry_on fw ->
    target cfg = windows ->
    Runs cfg this (after_read w rest) t r ->
    Runs cfg this w (did_read ev :: fw ++ t) r.

(** *** What a verdict says about the answer read *)

Inductive verdict_spec (cfg : build) (ev : read_event) : verdict -> Prop :=
| verdict_end_of_file :
    is_end_of_file ev = true ->
    verdict_spec cfg ev stop_done
| verdict_retry :
    is_end_of_file ev = false -> is_data ev = false ->
    is_retry cfg ev = true ->
    QLJS_EVENT_LOOP_READ_PIPE_NON_BLOCKING cfg = true ->
    verdict_spec cfg ev (carry_on [])
| verdict_unreachable :
    is_end_of_file ev = false -> is_data ev = false ->
    is_retry cfg ev = true ->
    QLJS_EVENT_LOOP_READ_PIPE_NON_BLOCKING cfg = false ->
    verdict_spec cfg ev (die unreachable)
| verdict_failure :
    is_end_of_file ev = false -> is_data ev = false ->
    is_failure ev = true -> is_retry cfg ev = false ->
    verdict_spec cfg ev (die unimplemented)
| verdict_empty :
    is_end_of_file ev = false -> is_data ev = true ->
    is_failure ev = false -> is_retry cfg ev = false ->
    assertions_enabled cfg = true ->
    bytes_read (read_result ev) = 0%Z ->
    verdict_spec cfg ev (die assertion_failed)
| verdict_data :
    is_end_of_file ev = false -> is_data ev = true ->
    is_failure ev = false -> is_retry cfg ev = false ->
    (assertions_enabled cfg = false \/ bytes_read (read_result ev) <> 0%Z) ->
    verdict_spec cfg ev (carry_on [did_append (chunk_of ev)]).

(** *** Classifying actions *)

Definition is_end_of_file_read (a : action) : bool :=
  match a with did_read ev => is_end_of_file ev | _ => false end.

Definition is_fatal_read (cfg : build) (a : action) : bool :=
  match a with
  | did_read ev => is_failure ev && negb (is_retry cfg ev)
  | _ => false
  end.

End Event_loop.

(** ** The event loop header: accounting for a run *)

Module Event_loop_accounts.

Import Event_loop.
Local Open Scope list_scope.

(** The answers [poll] gave, in call order. *)
Fixpoint polls_in (t : list action) : list poll_event :=
  match t with
  | [] => []
  | did_poll ev :: t' => ev :: polls_in t'
  | _ :: t' => polls_in t'
  end.

(** Chunks laid end to end. *)
Definition bytes_of (chunks : list string) : string :=
  fold_right String.append EmptyString chunks.

Definition is_wait (a : action) : bool :=
  match a with did_poll _ => true | _ => false end.

(** What the last action of a run that ended in [QLJS_UNIMPLEMENTED]
    can be: a failed read that is not the retryable condition, or a
    readiness wait that did not succeed. *)
Definition is_unimplemented_case (cfg : build) (a : action) : bool :=
  match a with
  | did_read ev => is_failure ev && negb (is_retry cfg ev)
  | did_poll ev => negb (poll_succeeds cfg ev)
  | did_append _ => false
  end.

End Event_loop_accounts.

(** ** error.h: checks on the table *)

Module Error_checks.

Import Error.
Local Open Scope list_scope.

Definition is_digit (c : ascii) : bool :=
  (48 <=? nat_of_ascii c)%nat && (nat_of_ascii c <=? 57)%nat.

(** The letter E followed by three decimal digits. *)
Definition code_shape (s : string) : bool :=
  match s with
  | String e (String a (String b (String c EmptyString))) =>
      Ascii.eqb e "E" && is_digit a && is_digit b && is_digit c
  | _ => false
  end.

(** The member names of the struct of an entry. *)
Definition member_names (K : error_type) : list string :=
  map snd (struct_body K).

(** An argument that names a place in the source text: a member that is
    an [identifier] or a [source_code_span], or the span built from two
    members. *)
Definition location_arg (decls : list (member_type * string))
    (a : format_arg) : bool :=
  match a with
  | member n =>
      match declared_type decls n with
      | Some identifier | Some source_code_span => true
      | _ => false
      end
  | span_from_to _ _ => true
  | string8_view_of _ => false
  end.

(** Every call of the chain gives a place as its first argument. *)
Definition anchored (K : error_type) : bool :=
  forallb (fun m => match args_of m with
                    | a :: _ => location_arg (struct_body K) a
                    | [] => false
                    end)
          (format_call K).

(** *** Placeholders *)

(** Modelled from the spec: the placeholders of a message text (the
    formatter that reads them is not among the sources).  The texts of
    the table write a placeholder as an opening brace, the decimal index
    of an argument, optionally a colon and the name of a form, and a
    closing brace; two opening braces stand for one brace of text; a
    closing brace outside a placeholder is text. *)
Record placeholder : Type := {
  index : nat;
  form : string
}.

Inductive scanning : Type :=
| in_text
| after_brace
| in_index (n : nat)
| in_form (n : nat) (f : string).

Definition digit_value (c : ascii) : nat := nat_of_ascii c - 48.

Definition add_placeholder (p : placeholder)
    (rest : option (list placeholder)) : option (list placeholder) :=
  match rest with
  | Some l => Some (p :: l)
  | None => None
  end.

(** The placeholders of a text, in order; [None] when the text is not
    written this way. *)
Fixpoint scan (st : scanning) (text : string)
    : option (list placeholder) :=
  match text with
  | EmptyString =>
      match st with in_text => Some [] | _ => None end
  | String c rest =>
      match st with
      | in_text =>
          if Ascii.eqb c "{" then scan after_brace rest
          else scan in_text rest
      | after_brace =>
          if Ascii.eqb c "{" then scan in_text rest
          else if is_digit c then scan (in_index (digit_value c)) rest
          else None
      | in_index n =>
          if is_digit c then scan (in_index (10 * n + digit_value c)) rest
          else if Ascii.eqb c ":" then scan (in_form n EmptyString) rest
          else if Ascii.eqb c "}" then
            add_placeholder {| index := n; form := EmptyString |}
                            (scan in_text rest)
          else None
      | in_form n f =>
          if Ascii.eqb c "}" then
            add_placeholder {| index := n; form := f |} (scan in_text rest)
          else scan (in_form n (f ++ String c EmptyString)%string) rest
      end
  end.

Definition placeholders (text : string) : option (list placeholder) :=
  scan in_text text.

(** What a placeholder needs of the argument it names: a form
    ([headlinese], [singular]) renders a [statement_kind]; without a
    form the argument is text of the source or of a string. *)
Definition arg_fits (decls : list (member_type * string))
    (p : placeholder) (a : format_arg) : bool :=
  match a with
  | member n =>
      match declared_type decls n with
      | Some statement_kind =>
          String.eqb (form p) "headlinese" || String.eqb (form p) "singular"
      | Some identifier | Some source_code_span =>
          String.eqb (form p) EmptyString
      | _ => false
      end
  | span_from_to _ _ | string8_view_of _ => String.eqb (form p) EmptyString
  end.

Definition placeholder_ok (decls : list (member_type * string))
    (args : list format_arg) (p : placeholder) : bool :=
  match nth_error args (index p) with
  | Some a => arg_fits decls p a
  | None => false
  end.

(** Every argument after the first, the place, is named by a
    placeholder. *)
Definition args_used (args : list format_arg) (ps : list placeholder)
    : bool :=
  forallb (fun i => existsb (fun p => Nat.eqb (index p) i) ps)
          (seq 1 (List.length args - 1)).

Definition message_ok (K : error_type) (m : message) : bool :=
  match placeholders (text_of m) with
  | Some ps =>
      forallb (placeholder_ok (struct_body K) (args_of m)) ps
      && args_used (args_of m) ps
  | None => false
  end.

End Error_checks.

(** ** generate-benchmark-html *)

Module Benchmark_html.

Local Open Scope list_scope.

(** *** Python values *)

(** The exceptions the code below can raise. *)
Inductive exception : Type :=
| KeyError (key : string)
| IndexError
| ValueError
| OverflowError
| AssertionError.

Inductive py (A : Type) : Type :=
| returns (a : A)
| raises (e : exception).

Arguments returns {A} a.
Arguments raises {A} e.

Definition bind {A B} (m : py A) (k : A -> py B) : py B :=
  match m with
  | returns a => k a
  | raises e => raises e
  end.

Notation "x <- m ;; k" := (bind m (fun x => k))
  (at level 61, m at next level, right associativity).
Notation "m ;; k" := (bind m (fun _ => k))
  (at level 61, right associativity).

(** [s.split(sep)] for a separator of one character, as its first piece
    and the pieces after it: the result of [split] is never empty. *)
Fixpoint split (sep : ascii) (s : string) : string * list string :=
  match s with
  | EmptyString => (EmptyString, [])
  | String c rest =>
      let (first, others) := split sep rest in
      if Ascii.eqb c sep then (EmptyString, first :: others)
      else (String c first, others)
  end.

Definition str_split (s : string) (sep : ascii) : list string :=
  let (first, others) := split sep s in first :: others.

(** [sep in s] for a separator of one character. *)
Fixpoint contains (sep : ascii) (s : string) : bool :=
  match s with
  | EmptyString => false
  | String c rest => Ascii.eqb c sep || contains sep rest
  end.

(** [l[i]] on a list: a negative index counts from the end. *)
Definition getitem {A} (l : list A) (i : Z) : py A :=
  let n := Z.of_nat (List.length l) in
  let j := if (i <? 0)%Z then (i + n)%Z else i in
  if (0 <=? j)%Z && (j <? n)%Z then
    match nth_error l (Z.to_nat j) with
    | Some x => returns x
    | None => raises IndexError
    end
  else raises IndexError.

(** [d[key]] on a dict with string keys, written as its items in
    order. *)
Fixpoint dict_getitem {V} (d : list (string * V)) (key : string) : py V :=
  match d with
  | [] => raises (KeyError key)
  | (k, v) :: d' =>
      if String.eqb k key then returns v else dict_getitem d' key
  end.

(** [range(n)] *)
Definition range (n : Z) : list Z := map Z.of_nat (seq 0 (Z.to_nat n)).

(** [assert condition] *)
Definition py_assert (condition : bool) : py unit :=
  if condition then returns tt else raises AssertionError.

Section Floats.

(** Python's [float] and what the script does with it; none of it is
    part of the script.  [float_of_int] is the conversion of an [int]
    operand or literal, [flt] is [<], and [ceil] is [math.ceil], which
    raises for a value that is not finite. *)
Variable float : Type.
Variables fadd fsub fmul fdiv : float -> float -> float.
Variable float_of_int : Z -> float.
Variable flt : float -> float -> bool.
Variable ceil : float -> py Z.

(** A number of the list [log_ticks_ms], which mixes both kinds. *)
Inductive number : Type :=
| of_int (z : Z)
| of_float (f : float).

(** [max(iterable)]: the first of the greatest items. *)
Definition py_max (l : list float) : py float :=
  match l with
  | [] => raises ValueError
  | x :: l' =>
      returns (fold_left (fun max_item item =>
                            if flt max_item item then item else max_item)
                         l' x)
  end.

(** [l.sort(key=key)]: the sort is stable; it is written here as an
    insertion from the right, each item going before the first item
    whose key is not smaller than its own.  For keys that [<] orders
    (floats other than NaN) this is the one list a stable sort gives. *)
Fixpoint insert_by {A} (key : A -> float) (x : A) (l : list A) : list A :=
  match l with
  | [] => [x]
  | y :: l' =>
      if flt (key y) (key x) then y :: insert_by key x l'
      else x :: y :: l'
  end.

Definition sort_by {A} (key : A -> float) (l : list A) : list A :=
  fold_right (insert_by key) [] l.

(** *** The script *)

(** [class Series(typing.NamedTuple)] *)
Record Series : Type := {
  name : string;
  min_ms : float;
  avg_ms : float;
  max_ms : float
}.

(** The dict of [Series.hue]; its values are the float literals [0.0],
    [60.0], ..., [300.0], kept as the integers they equal. *)
Definition hues : list (string * Z) :=
  [("quick-lint-js", 0%Z);
   ("eslint-server", 60%Z);
   ("RSLint", 120%Z);
   ("Flow", 180%Z);
   ("Deno", 240%Z);
   ("TypeScript-Theia", 300%Z)].

Definition hue (self : Series) : py float :=
  h <- dict_getitem hues (name self) ;;
  returns (float_of_int h).

(** One element of [criterion[2]], as far as [parse_criterion_json]
    reads it: [series["reportName"]] and, under
    [series["reportAnalysis"]["anMean"]], [["estPoint"]],
    [["estError"]["confIntLDX"]] and [["estError"]["confIntUDX"]]. *)
Record report : Type := {
  reportName : string;
  estPoint : float;
  confIntLDX : float;
  confIntUDX : float
}.

(** The name taken from a report: [series["reportName"].split("/")[0]]. *)
Definition series_name (r : report) : py string :=
  getitem (str_split (reportName r) "/") 0.

(** What the loop body appends for one report: the name cut at the
    first slash, the three times in milliseconds. *)
Definition made_of (r : report) : Series :=
  {| name := fst (split "/" (reportName r));
     min_ms := fmul (fsub (estPoint r) (confIntLDX r)) (float_of_int 1000);
     avg_ms := fmul (estPoint r) (float_of_int 1000);
     max_ms := fmul (fadd (estPoint r) (confIntUDX r)) (float_of_int 1000) |}.

(** The body of the loop of [parse_criterion_json]. *)
Definition series_of_report (r : report) : py Series :=
  name <- series_name r ;;
  let mean := estPoint r in
  let min := fsub mean (confIntLDX r) in
  let max := fadd mean (confIntUDX r) in
  returns {| name := name;
             min_ms := fmul min (float_of_int 1000);
             avg_ms := fmul mean (float_of_int 1000);
             max_ms := fmul max (float_of_int 1000) |}.

Fixpoint for_each {A B} (f : A -> py B) (l : list A) : py (list B) :=
  match l with
  | [] => returns []
  | x :: l' =>
      y <- f x ;;
      ys <- for_each f l' ;;
      returns (y :: ys)
  end.

(** [parse_criterion_json], from the list [criterion[2]] that
    [json.load] gave, for a file whose reports have the members above
    with a string and three floats. *)
Definition parse_criterion_json (criterion_2 : list report)
    : py (list Series) :=
  seriess <- for_each series_of_report criterion_2 ;;
  returns (sort_by avg_ms seriess).

(** What [make_benchmark_html] computes before its first
    [output.write]. *)
Record chart : Type := {
  chart_max : float;               (* max_ms *)
  ms_per_linear_tick : Z;
  linear_ticks_ms : list Z;
  chart_max_ms : Z;
  log_ticks_ms : list number;
  qljs_series : Series
}.

Definition linear_tick_count : Z := 7.

(** The float literal [0.1]. *)
Variable float_0_1 : float.

Definition make_benchmark_html_chart (seriess : list Series) : py chart :=
  max_ms <- py_max (map max_ms seriess) ;;
  c <- ceil (fdiv (fdiv max_ms (float_of_int linear_tick_count))
                  (float_of_int 25)) ;;
  let ms_per_linear_tick := (c * 25)%Z in
  let linear_ticks_ms :=
    map (fun i => ((i + 1) * ms_per_linear_tick)%Z)
        (range linear_tick_count) in
  py_assert (Z.of_nat (List.length linear_ticks_ms) =? linear_tick_count)%Z ;;
  chart_max_ms <- getitem linear_ticks_ms (-1) ;;
  let log_ticks_ms :=
    [of_float float_0_1; of_int 1; of_int 10; of_int 100;
     of_int chart_max_ms] in
  qljs_series <-
    getitem (filter (fun series => String.eqb (name series) "quick-lint-js")
                    seriess) 0 ;;
  returns {| chart_max := max_ms;
             ms_per_linear_tick := ms_per_linear_tick;
             linear_ticks_ms := linear_ticks_ms;
             chart_max_ms := chart_max_ms;
             log_ticks_ms := log_ticks_ms;
             qljs_series := qljs_series |}.

(** The [.json] branch of [HTMLTemplateVariables.__getitem__], from the
    parsed file to the first write of [make_benchmark_html]:
    [seriess = parse_criterion_json(...)], then
    [make_benchmark_html(seriess, output)]. *)
Definition getitem_json (criterion_2 : list report) : py chart :=
  seriess <- parse_criterion_json criterion_2 ;;
  make_benchmark_html_chart seriess.

(** Keys that [<] orders: among them [<] is asymmetric, and not being
    smaller is transitive.  This holds of floats none of which is NaN. *)
Definition ordered_keys (keys : list float) : Prop :=
  (forall a b, In a keys -> In b keys ->
     flt a b = true -> flt b a = false)
  /\ (forall a b c, In a keys -> In b keys -> In c keys ->
        flt a b = false -> flt b c = false -> flt a c = false).

End Floats.

Arguments of_int {float} z.
Arguments of_float {float} f.
Arguments name {float} s.
Arguments min_ms {float} s.
Arguments avg_ms {float} s.
Arguments max_ms {float} s.
Arguments reportName {float} r.
Arguments estPoint {float} r.
Arguments confIntLDX {float} r.
Arguments confIntUDX {float} r.
Arguments chart_max {float} c.
Arguments ms_per_linear_tick {float} c.
Arguments linear_ticks_ms {float} c.
Arguments chart_max_ms {float} c.
Arguments log_ticks_ms {float} c.
Arguments qljs_series {float} c.
Arguments py_max {float} flt l.
Arguments insert_by {float} flt {A} key x l.
Arguments sort_by {float} flt {A} key l.
Arguments hue {float} float_of_int self.
Arguments series_name {float} r.
Arguments series_of_report {float} fadd fsub fmul float_of_int r.
Arguments parse_criterion_json {float} fadd fsub fmul float_of_int flt
  criterion_2.
Arguments make_benchmark_html_chart {float} fdiv float_of_int flt ceil
  float_0_1 seriess.
Arguments ordered_keys {float} flt keys.
Arguments getitem_json {float} fadd fsub fmul fdiv float_of_int flt ceil
  float_0_1 criterion_2.
Arguments made_of {float} fadd fsub fmul float_of_int r.

(** The integers with their own arithmetic stand for the floats where
    a concrete run is wanted; [math.ceil] of an integer is the
    integer. *)
Definition as_int_ceil (z : Z) : py Z := returns z.

End Benchmark_html.

(* ================================================================== *)
(** * Part II.  Properties *)
(* ================================================================== *)

(** ** The diagnostic table and the reporters *)

Module Error_facts.

Import Error.
Local Open Scope list_scope.

(** *** Uniqueness *)

Lemma distinct_NoDup l : distinct l = true -> NoDup l.
Proof.
  induction l as [|x l IH]; simpl; intros H; constructor;
    apply andb_prop in H as [Hx Hl]; [|now apply IH].
  intros Hin. apply negb_true_iff in Hx.
  assert (existsb (String.eqb x) l = true); [|congruence].
  apply existsb_exists. exists x. split; [exact Hin|apply String.eqb_refl].
Qed.

Lemma NoDup_map_injective {A B} (f : A -> B) l :
  NoDup (map f l) ->
  forall x y, In x l -> In y l -> f x = f y -> x = y.
Proof.
  induction l as [|a l IH]; simpl; intros N x y Hx Hy E; [contradiction|].
  inversion N as [|? ? Ha N']; subst.
  destruct Hx as [->|Hx], Hy as [->|Hy]; auto.
  - exfalso. apply Ha. rewrite E. now apply in_map.
  - exfalso. apply Ha. rewrite <- E. now apply in_map.
Qed.

(** C4.  Across all entries of [QLJS_X_ERROR_TYPES] the short code is
    unique: the list of codes has no duplicate, so two distinct kinds of
    the table never carry the same code. *)
Theorem short_codes_are_unique :
  forall K1 K2,
    In K1 QLJS_X_ERROR_TYPES ->
    In K2 QLJS_X_ERROR_TYPES ->
    K1 <> K2 ->
    code K1 <> code K2 /\ NoDup (map code QLJS_X_ERROR_TYPES).
Proof.
  assert (N : NoDup (map code QLJS_X_ERROR_TYPES))
    by (apply distinct_NoDup; vm_compute; reflexivity).
  intros K1 K2 H1 H2 Hne. split; [|exact N].
  intros E. apply Hne. exact (NoDup_map_injective code _ N K1 K2 H1 H2 E).
Qed.

Lemma short_codes_are_unique_witness :
  let K1 :=
    QLJS_ERROR_TYPE "error_assignment_before_variable_declaration" "E001"
      [(identifier, "assignment"); (identifier, "declaration")]
      [error "variable assigned before its declaration" [member "assignment"];
       note "variable declared here" [member "declaration"]] in
  let K2 :=
    QLJS_ERROR_TYPE "error_assignment_to_const_global_variable" "E002"
      [(identifier, "assignment")]
      [error "assignment to const global variable" [member "assignment"]] in
  code K1 <> code K2 /\ NoDup (map code QLJS_X_ERROR_TYPES).
Proof.
  intros K1 K2.
  apply (short_codes_are_unique K1 K2).
  - left. reflexivity.
  - right. left. reflexivity.
  - discriminate.
Defined.

(** *** The discarding reporter *)

Lemma find_overload {W} (body : diagnostic -> W -> W) kinds K :
  In K kinds ->
  exists n,
    find (fun o : string * (diagnostic -> W -> W) =>
            String.eqb (fst o) (name K))
         (map (fun K' => (name K', body)) kinds)
    = Some (n, body).
Proof.
  induction kinds as [|K' kinds IH]; simpl; intros H; [contradiction|].
  destruct (String.eqb (name K') (name K)) eqn:E; [eauto|].
  destruct H as [->|H]; [|auto].
  rewrite String.eqb_refl in E. discriminate.
Qed.

(** C7.  The discarding reporter accepts every kind of the table and does
    nothing: for every kind and every diagnostic value of it, [report]
    has an overload and leaves everything as it was, so reporting the
    value twice is the same as reporting it once, and once the same as
    not at all. *)
Theorem null_error_reporter_does_nothing (W : Type) (d : diagnostic) (w : W) :
  In (kind d) QLJS_X_ERROR_TYPES ->
  map fst (@null_error_reporter W) = error_reporter
  /\ report null_error_reporter d w = Some w
  /\ report_all null_error_reporter [d; d] w
     = report_all null_error_reporter [d] w
  /\ report_all null_error_reporter [d] w
     = report_all null_error_reporter [] w.
Proof.
  intros H.
  assert (R : forall w' : W, report null_error_reporter d w' = Some w').
  { intros w'. unfold report, null_error_reporter.
    destruct (find_overload (fun (_ : diagnostic) (x : W) => x) _ _ H)
      as [n ->]. reflexivity. }
  split; [|split; [apply R|]].
  - unfold null_error_reporter, error_reporter. rewrite map_map. reflexivity.
  - simpl. rewrite !R. auto.
Qed.

Lemma null_error_reporter_does_nothing_witness :
  let K :=
    QLJS_ERROR_TYPE "error_assignment_to_const_global_variable" "E002"
      [(identifier, "assignment")]
      [error "assignment to const global variable" [member "assignment"]] in
  let d := {| kind := K;
              members := [identifier_value
                            {| span_begin := 4; span_end := 5 |} "x"] |} in
  let w := ["already reported"] in
  map fst (@null_error_reporter (list string)) = error_reporter
  /\ report null_error_reporter d w = Some w
  /\ report_all null_error_reporter [d; d] w
     = report_all null_error_reporter [d] w
  /\ report_all null_error_reporter [d] w
     = report_all null_error_reporter [] w.
Proof.
  intros K d w.
  apply (null_error_reporter_does_nothing (list string) d w).
  right. left. reflexivity.
Defined.

(** *** Message templates *)

(** The one entry whose primary message takes a span built from two
    members. *)
Example format_expected_as :
  option_map
    (fun K =>
       format {| kind := K;
                 members :=
                   [source_code_span_value
                      {| span_begin := 12; span_end := 13 |};
                    source_code_span_value
                      {| span_begin := 9; span_end := 10 |}] |})
    (find (fun K => String.eqb (code K) "E126") QLJS_X_ERROR_TYPES)
  = Some (Some
      {| primary_messages :=
           [{| template := "expected 'as' between '{1}' and '{2}'";
               interpolated :=
                 [of_span {| span_begin := 9; span_end := 13 |};
                  of_member (source_code_span_value
                               {| span_begin := 9; span_end := 10 |});
                  of_member (source_code_span_value
                               {| span_begin := 12; span_end := 13 |})] |}];
         note_messages := [] |}).
Proof. vm_compute. reflexivity. Qed.


Lemma declared_type_In decls n ty :
  declared_type decls n = Some ty -> In n (map snd decls).
Proof.
  induction decls as [|[ty' n'] decls IH]; simpl; [discriminate|].
  destruct (String.eqb_spec n' n); auto.
Qed.

Lemma arg_bound_declared decls a :
  arg_bound decls a = true ->
  forall n, In n (names_in a) -> In n (map snd decls).
Proof.
  destruct a as [m|f l|m]; simpl.
  - destruct (declared_type decls m) eqn:E; [|discriminate].
    intros _ n [<-|[]]. eapply declared_type_In; eauto.
  - destruct (declared_type decls f) as [[]|] eqn:Ef; try discriminate.
    destruct (declared_type decls l) as [[]|] eqn:El; try discriminate.
    intros _ n [<-|[<-|[]]]; eapply declared_type_In; eauto.
  - destruct (declared_type decls m) as [[]|] eqn:E; try discriminate.
    intros _ n [<-|[]]. eapply declared_type_In; eauto.
Qed.

Lemma member_type_eqb_eq a b : member_type_eqb a b = true -> a = b.
Proof. destruct a, b; simpl; congruence. Qed.

Lemma member_named_typed decls : forall vs n ty,
  members_match decls vs = true ->
  declared_type decls n = Some ty ->
  exists v, member_named decls vs n = Some v /\ type_of v = ty.
Proof.
  induction decls as [|[ty' n'] decls IH]; intros [|v vs] n ty M D;
    simpl in *; try discriminate.
  apply andb_prop in M as [Mv M]. apply member_type_eqb_eq in Mv.
  destruct (String.eqb n' n).
  - injection D as <-. eauto.
  - eauto.
Qed.

Lemma eval_arg_bound d a :
  well_formed d = true ->
  arg_bound (struct_body (kind d)) a = true ->
  exists v, eval_arg d a = Some v.
Proof.
  unfold well_formed. intros M.
  destruct a as [m|f l|m]; simpl.
  - destruct (declared_type _ m) eqn:E; [|discriminate]. intros _.
    destruct (member_named_typed _ _ _ _ M E) as (v & -> & _). eauto.
  - destruct (declared_type _ f) as [[]|] eqn:Ef; try discriminate.
    destruct (declared_type _ l) as [[]|] eqn:El; try discriminate.
    intros _.
    destruct (member_named_typed _ _ _ _ M Ef) as (vf & -> & Tf).
    destruct (member_named_typed _ _ _ _ M El) as (vl & -> & Tl).
    destruct vf; try discriminate Tf. destruct vl; try discriminate Tl.
    eauto.
  - destruct (declared_type _ m) as [[]|] eqn:E; try discriminate.
    intros _.
    destruct (member_named_typed _ _ _ _ M E) as (v & -> & T).
    destruct v; try discriminate T. eauto.
Qed.

Lemma eval_args_bound d args :
  well_formed d = true ->
  forallb (arg_bound (struct_body (kind d))) args = true ->
  exists vs, eval_args d args = Some vs.
Proof.
  intros M. induction args as [|a args IH]; simpl; intros B; [eauto|].
  apply andb_prop in B as [Ba B].
  destruct (eval_arg_bound d a M Ba) as [v ->].
  destruct (IH B) as [vs ->]. eauto.
Qed.

Lemma format_messages_bound d ms :
  well_formed d = true ->
  forallb (fun m => forallb (arg_bound (struct_body (kind d))) (args_of m)) ms
  = true ->
  exists out,
    format_messages d ms = Some out
    /\ List.length (primary_messages out)
       = List.length (filter is_primary ms)
    /\ List.length (note_messages out) = List.length (filter is_note ms).
Proof.
  intros M. induction ms as [|m ms IH]; simpl; intros B.
  - eexists. split; [reflexivity|]. auto.
  - apply andb_prop in B as [Bm B].
    destruct (eval_args_bound d _ M Bm) as [vs ->].
    destruct (IH B) as (out & -> & P & N).
    eexists. split; [reflexivity|].
    unfold is_primary. destruct (is_note m); simpl; rewrite P, N; auto.
Qed.

Lemma table_checked :
  forallb (fun K => one_primary_then_notes K && args_bound K)
          QLJS_X_ERROR_TYPES = true.
Proof. vm_compute. reflexivity. Qed.

Lemma no_primary_among_notes ms :
  forallb is_note ms = true -> filter is_primary ms = [].
Proof.
  induction ms as [|m ms IH]; simpl; [reflexivity|]. intros H.
  apply andb_prop in H as [Hm H]. unfold is_primary at 1. rewrite Hm.
  simpl. auto.
Qed.

(** C9.  For every kind [K] of the table: its format chain is one primary
    message ([.error] or [.warning]) followed by zero or more notes;
    every argument of every message, notes included, names only members
    that [K]'s struct declares (directly, or inside the span or string
    built from them); and formatting a value of [K] yields one primary
    message and exactly as many notes as the chain declares. *)
Theorem message_templates_are_bound_to_their_kind K :
  In K QLJS_X_ERROR_TYPES ->
  (exists m notes,
      format_call K = m :: notes
      /\ is_primary m = true
      /\ forallb is_note notes = true
      /\ declared_notes K = notes)
  /\ (forall m a n,
        In m (format_call K) -> In a (args_of m) -> In n (names_in a) ->
        In n (map snd (struct_body K)))
  /\ (forall d,
        kind d = K -> well_formed d = true ->
        exists out,
          format d = Some out
          /\ List.length (primary_messages out) = 1
          /\ List.length (note_messages out)
             = List.length (declared_notes K)).
Proof.
  intros HK.
  pose proof table_checked as T. rewrite forallb_forall in T.
  specialize (T K HK). apply andb_prop in T as [S B].
  unfold one_primary_then_notes in S.
  destruct (format_call K) as [|m notes] eqn:F; [discriminate|].
  apply andb_prop in S as [Sm Sn].
  assert (P : filter is_primary (m :: notes) = [m])
    by (simpl; rewrite Sm, (no_primary_among_notes _ Sn); reflexivity).
  assert (N : declared_notes K = notes).
  { unfold declared_notes. rewrite F. simpl.
    unfold is_primary in Sm. apply negb_true_iff in Sm. rewrite Sm.
    clear - Sn. induction notes as [|x l IH]; simpl in *; [reflexivity|].
    apply andb_prop in Sn as [-> Sn]. f_equal. auto. }
  split; [|split].
  - exists m, notes. auto.
  - intros m' a n Hm Ha Hn. unfold args_bound in B. rewrite F in B.
    rewrite forallb_forall in B. specialize (B m' Hm).
    rewrite forallb_forall in B.
    exact (arg_bound_declared _ _ (B a Ha) n Hn).
  - intros d Hk Hw. unfold format. subst K.
    unfold args_bound in B.
    destruct (format_messages_bound d (format_call (kind d)) Hw B)
      as (out & E & Pl & Nl).
    exists out. split; [exact E|]. rewrite F in Pl, Nl. rewrite P in Pl.
    split; [exact Pl|]. rewrite N. unfold declared_notes in N.
    rewrite F in N. rewrite N in Nl. exact Nl.
Qed.

Lemma message_templates_are_bound_to_their_kind_witness :
  let K :=
    QLJS_ERROR_TYPE "error_assignment_before_variable_declaration" "E001"
      [(identifier, "assignment"); (identifier, "declaration")]
      [error "variable assigned before its declaration" [member "assignment"];
       note "variable declared here" [member "declaration"]] in
  let d := {| kind := K;
              members :=
                [identifier_value {| span_begin := 0; span_end := 1 |} "x";
                 identifier_value {| span_begin := 8; span_end := 9 |} "x"] |}
  in
  exists out,
    format d = Some out
    /\ List.length (primary_messages out) = 1
    /\ List.length (note_messages out) = List.length (declared_notes K).
Proof.
  intros K d.
  apply (proj2 (proj2 (message_templates_are_bound_to_their_kind K
                         (or_introl eq_refl))) d);
    reflexivity.
Defined.

End Error_facts.

(** ** The event loop *)

Module Event_loop_facts.

Import Event_loop.
Local Open Scope list_scope.

(** *** One turn of the loop *)

Lemma read_from_pipe_unfold cfg this w :
  read_from_pipe cfg this w =
  if mode_assertion_passes cfg w then
    match reads w with
    | [] => ([], blocked)
    | ev :: rest =>
        match verdict_of cfg ev with
        | stop_done =>
            ([did_read ev], value {| done_ := true |} (after_read w rest))
        | carry_on fw => (did_read ev :: fw, value this (after_read w rest))
        | die why => ([did_read ev], abort why)
        end
    end
  else ([], abort assertion_failed).
Proof.
  unfold read_from_pipe, mode_assertion_passes, pipe_mode_matches, verdict_of,
    is_end_of_file, bind, pipe_is_non_blocking, QLJS_ASSERT, pipe_read, ret,
    append, QLJS_UNIMPLEMENTED, QLJS_UNREACHABLE, after_read, chunk_of.
  destruct (assertions_enabled cfg), (is_pipe_non_blocking w) eqn:Hnb,
    (QLJS_EVENT_LOOP_READ_PIPE_NON_BLOCKING cfg); simpl;
    try reflexivity;
    (destruct (reads w) as [|ev rest]; [reflexivity|]; simpl;
     destruct (at_end_of_file (read_result ev)); [rewrite ?Hnb; reflexivity|];
     destruct (has_value (error_message (read_result ev)));
     [ destruct (QLJS_HAVE_UNISTD_H cfg && (errno ev =? EAGAIN cfg)%Z);
       rewrite ?Hnb; reflexivity
     | simpl; destruct (bytes_read (read_result ev) =? 0)%Z;
       rewrite ?Hnb; reflexivity ]).
Qed.

Lemma wait_for_pipe_unfold cfg w :
  wait_for_pipe cfg w =
  match target cfg with
  | windows => ([], value tt w)
  | posix =>
      match polls w with
      | [] => ([], blocked)
      | ev :: rest =>
          match poll_verdict_of cfg ev with
          | Some why => ([did_poll ev], abort why)
          | None => ([did_poll ev], value tt (after_poll w rest))
          end
      end
  end.
Proof.
  unfold wait_for_pipe, poll_verdict_of, bind, poll, QLJS_ASSERT, ret,
    QLJS_UNIMPLEMENTED, after_poll.
  destruct (target cfg); [|reflexivity].
  destruct (polls w) as [|ev rest]; [reflexivity|].
  destruct (rc ev =? -1)%Z; [reflexivity|].
  destruct (assertions_enabled cfg), (rc ev >? 0)%Z; simpl;
    try reflexivity;
    destruct (Z.land (revents ev) (POLLIN cfg) =? 0)%Z; simpl;
    try reflexivity;
    destruct (Z.land (revents ev) (POLLERR cfg) =? 0)%Z; reflexivity.
Qed.

(** One turn of [run]'s loop, spelled out. *)
Lemma run_loop_unfold cfg fuel this w :
  run_loop cfg (S fuel) this w =
  if done_ this then ([], value this w)
  else if mode_assertion_passes cfg w then
    match reads w with
    | [] => ([], blocked)
    | ev :: rest =>
        match verdict_of cfg ev with
        | stop_done =>
            ([did_read ev], value {| done_ := true |} (after_read w rest))
        | die why => ([did_read ev], abort why)
        | carry_on fw =>
            match target cfg with
            | windows =>
                let (t, r) := run_loop cfg fuel this (after_read w rest) in
                (did_read ev :: fw ++ t, r)
            | posix =>
                match polls w with
                | [] => (did_read ev :: fw, blocked)
                | p :: ps =>
                    match poll_verdict_of cfg p with
                    | Some why => (did_read ev :: fw ++ [did_poll p], abort why)
                    | None =>
                        let (t, r) :=
                          run_loop cfg fuel this
                            (after_poll (after_read w rest) ps) in
                        (did_read ev :: fw ++ did_poll p :: t, r)
                    end
                end
            end
        end
    end
  else ([], abort assertion_failed).
Proof.
  cbn [run_loop]. destruct (done_ this) eqn:Hd; [reflexivity|].
  unfold bind at 1. rewrite read_from_pipe_unfold.
  destruct (mode_assertion_passes cfg w); [|reflexivity].
  destruct (reads w) as [|ev rest]; [reflexivity|].
  destruct (verdict_of cfg ev) as [|fw|why]; try reflexivity.
  rewrite Hd. unfold bind. rewrite wait_for_pipe_unfold.
  destruct (target cfg).
  - simpl. destruct (polls w) as [|p ps]; simpl.
    + rewrite app_nil_r. reflexivity.
    + destruct (poll_verdict_of cfg p); [reflexivity|].
      destruct (run_loop cfg fuel this _) as [t r]. simpl.
      reflexivity.
  - destruct (run_loop cfg fuel this _) as [t r]. reflexivity.
Qed.

(** [run_loop] does not run out of fuel once it has more fuel than the
    pipe has answers, and more fuel changes nothing. *)
Lemma run_loop_enough_fuel cfg fuel : forall fuel' this w,
  List.length (reads w) < fuel ->
  List.length (reads w) < fuel' ->
  run_loop cfg fuel this w = run_loop cfg fuel' this w
  /\ snd (run_loop cfg fuel this w) <> out_of_fuel.
Proof.
  induction fuel as [|fuel IH]; intros [|fuel'] this w Hlt Hlt'; try lia.
  rewrite !run_loop_unfold.
  destruct (done_ this); [split; [reflexivity|discriminate]|].
  destruct (mode_assertion_passes cfg w); [|split; [reflexivity|discriminate]].
  destruct (reads w) as [|ev rest] eqn:Hr; [split; [reflexivity|discriminate]|].
  cbn [List.length] in Hlt, Hlt'.
  destruct (verdict_of cfg ev) as [|fw|why];
    try (split; [reflexivity|discriminate]).
  destruct (target cfg).
  - destruct (polls w) as [|p ps]; [split; [reflexivity|discriminate]|].
    destruct (poll_verdict_of cfg p); [split; [reflexivity|discriminate]|].
    destruct (IH fuel' this (after_poll (after_read w rest) ps)) as [E N];
      [cbn; lia | cbn; lia |].
    rewrite <- E.
    destruct (run_loop cfg fuel this _) as [t r].
    split; [reflexivity|exact N].
  - destruct (IH fuel' this (after_read w rest)) as [E N];
      [cbn; lia | cbn; lia |].
    rewrite <- E.
    destruct (run_loop cfg fuel this _) as [t r].
    split; [reflexivity|exact N].
Qed.

(** One turn of [run] itself. *)
Lemma run_unfold cfg this w :
  run cfg this w =
  if done_ this then ([], value this w)
  else if mode_assertion_passes cfg w then
    match reads w with
    | [] => ([], blocked)
    | ev :: rest =>
        match verdict_of cfg ev with
        | stop_done =>
            ([did_read ev], value {| done_ := true |} (after_read w rest))
        | die why => ([did_read ev], abort why)
        | carry_on fw =>
            match target cfg with
            | windows =>
                let (t, r) := run cfg this (after_read w rest) in
                (did_read ev :: fw ++ t, r)
            | posix =>
                match polls w with
                | [] => (did_read ev :: fw, blocked)
                | p :: ps =>
                    match poll_verdict_of cfg p with
                    | Some why => (did_read ev :: fw ++ [did_poll p], abort why)
                    | None =>
                        let (t, r) :=
                          run cfg this (after_poll (after_read w rest) ps) in
                        (did_read ev :: fw ++ did_poll p :: t, r)
                    end
                end
            end
        end
    end
  else ([], abort assertion_failed).
Proof.
  unfold run at 1. rewrite run_loop_unfold.
  destruct (done_ this); [reflexivity|].
  destruct (mode_assertion_passes cfg w); [|reflexivity].
  destruct (reads w) as [|ev rest]; [reflexivity|].
  destruct (verdict_of cfg ev); reflexivity.
Qed.

(** [run] comes to an end: it returns, terminates the process, or is left
    waiting in a call; its model does not run out of fuel. *)
Lemma run_total cfg this w : outcome cfg this w <> out_of_fuel.
Proof.
  unfold outcome, run.
  apply (run_loop_enough_fuel cfg _ (S (List.length (reads w)))); lia.
Qed.

Lemma run_when_done cfg this w :
  done_ this = true ->
  trace cfg this w = [] /\ outcome cfg this w = value this w.
Proof.
  intros Hd. unfold trace, outcome. rewrite run_unfold, Hd. auto.
Qed.

(** *** The runs of the loop *)

Lemma run_Runs_aux cfg n : forall this w,
  List.length (reads w) <= n ->
  Runs cfg this w (trace cfg this w) (outcome cfg this w).
Proof.
  unfold trace, outcome.
  induction n as [|n IH]; intros this w Hn; rewrite run_unfold;
    destruct (done_ this) eqn:Hd; try (now constructor);
    destruct (mode_assertion_passes cfg w) eqn:Hm; try (now constructor);
    destruct (reads w) as [|ev rest] eqn:Hr; try (now constructor);
    cbn [List.length] in Hn; try lia.
  destruct (verdict_of cfg ev) as [|fw|why] eqn:Hv;
    [ now eapply Runs_end_of_file; eauto | | now eapply Runs_die; eauto ].
  destruct (target cfg) eqn:Ht.
  - destruct (polls w) as [|p ps] eqn:Hp;
      [ now eapply Runs_no_poll_answer; eauto |].
    destruct (poll_verdict_of cfg p) eqn:Hpv;
      [ now eapply Runs_poll_dies; eauto |].
    specialize (IH this (after_poll (after_read w rest) ps)).
    destruct (run cfg this _) as [t r].
    eapply Runs_poll_on; eauto. apply IH. cbn. lia.
  - specialize (IH this (after_read w rest)).
    destruct (run cfg this _) as [t r].
    eapply Runs_on_windows; eauto. apply IH. cbn. lia.
Qed.

Lemma run_Runs cfg this w :
  Runs cfg this w (trace cfg this w) (outcome cfg this w).
Proof. exact (run_Runs_aux cfg (List.length (reads w)) this w (le_n _)). Qed.

Lemma Runs_starts_with_read cfg this w t r :
  Runs cfg this w t r ->
  t = [] \/ exists ev t', t = did_read ev :: t'.
Proof. destruct 1; eauto. Qed.

(** *** What a verdict says about the answer read *)

Lemma verdict_of_spec cfg ev : verdict_spec cfg ev (verdict_of cfg ev).
Proof.
  unfold verdict_of.
  destruct (is_end_of_file ev) eqn:He; [now constructor|].
  destruct (has_value (error_message (read_result ev))) eqn:Hf.
  - destruct (QLJS_HAVE_UNISTD_H cfg && (errno ev =? EAGAIN cfg)%Z) eqn:Hr.
    + destruct (QLJS_EVENT_LOOP_READ_PIPE_NON_BLOCKING cfg) eqn:Hn;
        constructor; auto;
        unfold is_data, is_retry, is_failure, is_end_of_file in *;
        rewrite ?He, ?Hf; simpl; auto.
    + constructor; auto;
        unfold is_data, is_retry, is_failure, is_end_of_file in *;
        rewrite ?He, ?Hf; simpl; auto.
  - assert (is_data ev = true /\ is_failure ev = false
            /\ is_retry cfg ev = false) as (D & F & R)
      by (unfold is_data, is_retry, is_failure, is_end_of_file in *;
          rewrite ?He, ?Hf; auto).
    destruct (assertions_enabled cfg) eqn:Ha; simpl.
    + destruct (Z.eqb_spec (bytes_read (read_result ev)) 0).
      * now constructor.
      * constructor; auto.
    + constructor; auto.
Qed.

Lemma verdict_stop_iff cfg ev :
  verdict_of cfg ev = stop_done <-> is_end_of_file ev = true.
Proof.
  split; intros H.
  - pose proof (verdict_of_spec cfg ev) as S. rewrite H in S. now inversion S.
  - unfold verdict_of. now rewrite H.
Qed.

Lemma verdict_carry_on cfg ev fw :
  verdict_of cfg ev = carry_on fw ->
  is_end_of_file ev = false
  /\ ((fw = [] /\ is_data ev = false /\ is_retry cfg ev = true)
      \/ (fw = [did_append (chunk_of ev)] /\ is_data ev = true
          /\ is_retry cfg ev = false)).
Proof.
  intros H. pose proof (verdict_of_spec cfg ev) as S. rewrite H in S.
  inversion S; subst; auto.
Qed.

Lemma verdict_of_retry cfg ev :
  is_retry cfg ev = true ->
  QLJS_EVENT_LOOP_READ_PIPE_NON_BLOCKING cfg = true ->
  verdict_of cfg ev = carry_on [] /\ is_data ev = false.
Proof.
  intros Hr Hn. destruct (verdict_of_spec cfg ev) as [He| | | | |];
    auto; try congruence.
  unfold is_retry, is_failure, is_end_of_file in *.
  rewrite He in Hr. discriminate.
Qed.

Lemma verdict_of_data cfg ev :
  is_data ev = true ->
  bytes_read (read_result ev) <> 0%Z ->
  verdict_of cfg ev = carry_on [did_append (chunk_of ev)].
Proof.
  intros Hd Hb. destruct (verdict_of_spec cfg ev); auto; try congruence.
  unfold is_data, is_end_of_file in *.
  destruct (at_end_of_file (read_result ev)); discriminate.
Qed.

Lemma poll_succeeds_verdict cfg p :
  poll_succeeds cfg p = true <-> poll_verdict_of cfg p = None.
Proof.
  unfold poll_succeeds, poll_verdict_of.
  destruct (rc p =? -1)%Z, (assertions_enabled cfg), (rc p >? 0)%Z,
    (Z.land (revents p) (POLLIN cfg) =? 0)%Z,
    (Z.land (revents p) (POLLERR cfg) =? 0)%Z; simpl;
    split; congruence.
Qed.

(** *** Reading traces *)

Lemma reads_in_app t1 t2 : reads_in (t1 ++ t2) = reads_in t1 ++ reads_in t2.
Proof.
  induction t1 as [|[ev|d|p] t1 IH]; simpl; rewrite ?IH; reflexivity.
Qed.

Lemma appended_app t1 t2 : appended (t1 ++ t2) = appended t1 ++ appended t2.
Proof.
  induction t1 as [|[ev|d|p] t1 IH]; simpl; rewrite ?IH; reflexivity.
Qed.

Lemma In_reads_in ev t : In ev (reads_in t) <-> In (did_read ev) t.
Proof.
  induction t as [|[ev'|d|p] t IH]; simpl.
  - tauto.
  - rewrite IH. split; intros [H|H]; auto; left; congruence.
  - rewrite IH. split; [auto|]. intros [H|H]; [discriminate|auto].
  - rewrite IH. split; [auto|]. intros [H|H]; [discriminate|auto].
Qed.

(** Splitting a trace at an action that the first actions cannot be. *)
Lemma split_past (f : action -> bool) px : forall t pre x post,
  forallb (fun a => negb (f a)) px = true ->
  f x = true ->
  px ++ t = pre ++ x :: post ->
  exists pre', pre = px ++ pre' /\ t = pre' ++ x :: post.
Proof.
  induction px as [|a px IH]; intros t pre x post Hpx Hx E.
  - exists pre. auto.
  - simpl in Hpx. apply andb_prop in Hpx as [Ha Hpx].
    destruct pre as [|b pre]; simpl in E; injection E as E1 E2.
    + subst a. rewrite Hx in Ha. discriminate.
    + subst b. destruct (IH _ _ _ _ Hpx Hx E2) as (pre' & -> & ->).
      exists pre'. auto.
Qed.

Lemma not_among (f : action -> bool) px pre x post :
  forallb (fun a => negb (f a)) px = true ->
  f x = true ->
  px = pre ++ x :: post ->
  False.
Proof.
  intros Hpx Hx E. rewrite <- (app_nil_r px) in E.
  destruct (split_past f px [] pre x post Hpx Hx E) as (pre' & _ & E').
  destruct pre'; discriminate E'.
Qed.

(** The actions of a turn after which the loop goes on contain neither a
    read at end of file nor a fatal read. *)
Lemma carry_on_turn cfg ev fw tail :
  verdict_of cfg ev = carry_on fw ->
  forallb (fun a => negb (is_end_of_file_read a)) tail = true ->
  forallb (fun a => negb (is_fatal_read cfg a)) tail = true ->
  forallb (fun a => negb (is_end_of_file_read a))
          (did_read ev :: fw ++ tail) = true
  /\ forallb (fun a => negb (is_fatal_read cfg a))
             (did_read ev :: fw ++ tail) = true.
Proof.
  intros Hv H1 H2.
  pose proof (verdict_of_spec cfg ev) as S. rewrite Hv in S.
  inversion S as [ | He Hd Hr Hn | | | | He Hd Hf Hr Ha ]; subst; simpl;
    rewrite He, ?Hr, ?Hf, ?andb_false_r; simpl; auto.
Qed.

Ltac peel E pre :=
  destruct pre as [|? pre]; simpl in E;
  [ try discriminate E
  | first [ discriminate E
          | let H := fresh in
            injection E as H E;
            match type of H with _ = ?a => subst a end ] ].

Lemma string8_view_length data : forall size,
  String.length (string8_view data size)
  = Nat.min size (String.length data).
Proof.
  induction data as [|c data IH]; intros [|size]; simpl; auto.
Qed.

Lemma string8_view_all data :
  string8_view data (String.length data) = data.
Proof. induction data as [|c data IH]; simpl; congruence. Qed.

(** Reading back the chunk of an answer built by [read_chunk]. *)
Lemma chunk_of_read_chunk chunk : chunk_of (read_chunk chunk) = chunk.
Proof.
  unfold chunk_of, read_chunk, narrow_cast. simpl.
  rewrite Nat2Z.id. apply string8_view_all.
Qed.

Lemma carries_bytes_spec ev :
  carries_bytes ev = true ->
  is_data ev = true
  /\ bytes_read (read_result ev) <> 0%Z
  /\ chunk_of ev <> EmptyString.
Proof.
  unfold carries_bytes. intros H.
  apply andb_prop in H as [H Hle]. apply andb_prop in H as [Hd Hlt].
  apply Z.ltb_lt in Hlt. apply Z.leb_le in Hle.
  split; [exact Hd|]. split; [lia|].
  intros E. apply (f_equal String.length) in E.
  unfold chunk_of, narrow_cast in E. rewrite string8_view_length in E.
  simpl in E. lia.
Qed.

(** *** Where the actions stand in a run *)

(** Induction on a run, with the names the proofs below use: [ev0] is the
    answer read in the first turn, [fw] what was forwarded, [p] the
    answer of its readiness wait, [HR] and [IH] the rest of the run. *)
Ltac induction_on_run :=
  induction 1 as
    [ this w Hd | this w Hd Hm | this w Hd Hm Hr
    | this w ev0 rest Hd Hm Hr Hv | this w ev0 rest why Hd Hm Hr Hv
    | this w ev0 rest fw Hd Hm Hr Hv Ht Hp
    | this w ev0 rest fw p ps why Hd Hm Hr Hv Ht Hp Hpv
    | this w ev0 rest fw p ps t r Hd Hm Hr Hv Ht Hp Hpv HR IH
    | this w ev0 rest fw t r Hd Hm Hr Hv Ht HR IH ].

(** A read at end of file is the last thing a run does, and the run then
    returns. *)
Lemma Runs_end_of_file_last cfg this w t r :
  Runs cfg this w t r ->
  forall pre ev post,
    t = pre ++ did_read ev :: post ->
    is_end_of_file ev = true ->
    post = [] /\ returned r = true.
Proof.
  induction_on_run;
    intros pre ev post E He;
    try (destruct pre; discriminate E).
  - destruct pre as [|a [|b pre]]; try discriminate E.
    injection E as E1 E2. auto.
  - destruct pre as [|a [|b pre]]; try discriminate E.
    injection E as E1 E2. subst ev0.
    apply (verdict_stop_iff cfg) in He. congruence.
  - destruct (carry_on_turn cfg ev0 fw [] Hv eq_refl eq_refl) as [F _].
    rewrite app_nil_r in F.
    now apply (not_among is_end_of_file_read) in E.
  - destruct (carry_on_turn cfg ev0 fw [did_poll p] Hv eq_refl eq_refl)
      as [F _].
    now apply (not_among is_end_of_file_read) in E.
  - destruct (carry_on_turn cfg ev0 fw [did_poll p] Hv eq_refl eq_refl)
      as [F _].
    replace (did_read ev0 :: fw ++ did_poll p :: t)
      with ((did_read ev0 :: fw ++ [did_poll p]) ++ t) in E
      by (simpl; rewrite <- app_assoc; reflexivity).
    apply (split_past is_end_of_file_read) in E; auto.
    destruct E as (pre' & _ & E). eapply IH; eauto.
  - destruct (carry_on_turn cfg ev0 fw [] Hv eq_refl eq_refl) as [F _].
    rewrite app_nil_r in F.
    change (did_read ev0 :: fw ++ t) with ((did_read ev0 :: fw) ++ t) in E.
    apply (split_past is_end_of_file_read) in E; auto.
    destruct E as (pre' & _ & E). eapply IH; eauto.
Qed.

(** A run of a loop that was not done returns only from a read at end of
    file, with the loop done. *)
Lemma Runs_returned cfg this w t r :
  Runs cfg this w t r ->
  done_ this = false ->
  forall this' w', r = value this' w' ->
    done_ this' = true
    /\ exists pre ev, t = pre ++ [did_read ev] /\ is_end_of_file ev = true.
Proof.
  induction_on_run;
    intros Hnd this' w' E; try discriminate E; try congruence.
  - injection E as <- <-. split; [reflexivity|].
    exists [], ev0. split; [reflexivity|]. exact (proj1 (verdict_stop_iff cfg ev0) Hv).
  - destruct (IH Hnd _ _ E) as (D & pre & ev & -> & He).
    split; [exact D|].
    exists (did_read ev0 :: fw ++ did_poll p :: pre), ev.
    split; [|exact He]. simpl. rewrite <- app_assoc. reflexivity.
  - destruct (IH Hnd _ _ E) as (D & pre & ev & -> & He).
    split; [exact D|].
    exists (did_read ev0 :: fw ++ pre), ev.
    split; [|exact He]. simpl. rewrite <- app_assoc. reflexivity.
Qed.

(** A failed read that is not the retryable condition is the last thing a
    run does, and the run ends in [QLJS_UNIMPLEMENTED]. *)
Lemma Runs_fatal_read_last cfg this w t r :
  Runs cfg this w t r ->
  forall pre ev post,
    t = pre ++ did_read ev :: post ->
    is_failure ev = true ->
    is_retry cfg ev = false ->
    post = [] /\ r = abort unimplemented.
Proof.
  induction_on_run;
    intros pre ev post E Hf Hnr;
    try (destruct pre; discriminate E);
    assert (Hx : is_fatal_read cfg (did_read ev) = true)
      by (simpl; rewrite Hf, Hnr; reflexivity).
  - destruct pre as [|a [|b pre]]; try discriminate E.
    injection E as E1 E2. subst ev0.
    apply verdict_stop_iff in Hv. unfold is_failure, is_end_of_file in *.
    rewrite Hv in Hf. discriminate.
  - destruct pre as [|a [|b pre]]; try discriminate E.
    injection E as E1 E2. subst ev0 post. split; [reflexivity|].
    pose proof (verdict_of_spec cfg ev) as S. rewrite Hv in S.
    inversion S; subst; congruence.
  - destruct (carry_on_turn cfg ev0 fw [] Hv eq_refl eq_refl) as [_ F].
    rewrite app_nil_r in F.
    now apply (not_among (is_fatal_read cfg)) in E.
  - destruct (carry_on_turn cfg ev0 fw [did_poll p] Hv eq_refl eq_refl)
      as [_ F].
    now apply (not_among (is_fatal_read cfg)) in E.
  - destruct (carry_on_turn cfg ev0 fw [did_poll p] Hv eq_refl eq_refl)
      as [_ F].
    replace (did_read ev0 :: fw ++ did_poll p :: t)
      with ((did_read ev0 :: fw ++ [did_poll p]) ++ t) in E
      by (simpl; rewrite <- app_assoc; reflexivity).
    apply (split_past (is_fatal_read cfg)) in E; auto.
    destruct E as (pre' & _ & E). eapply IH; eauto.
  - destruct (carry_on_turn cfg ev0 fw [] Hv eq_refl eq_refl) as [_ F].
    rewrite app_nil_r in F.
    change (did_read ev0 :: fw ++ t) with ((did_read ev0 :: fw) ++ t) in E.
    apply (split_past (is_fatal_read cfg)) in E; auto.
    destruct E as (pre' & _ & E). eapply IH; eauto.
Qed.

Lemma Runs_append_position cfg this w t r :
  Runs cfg this w t r ->
  forall pre data post,
    t = pre ++ did_append data :: post ->
    (exists pre' ev,
        pre = pre' ++ [did_read ev]
        /\ is_data ev = true /\ data = chunk_of ev)
    /\ match target cfg with
       | posix =>
           post = []
           \/ exists p post',
                post = did_poll p :: post'
                /\ (post' = [] \/ exists ev post'', post' = did_read ev :: post'')
       | windows =>
           post = [] \/ exists ev post', post = did_read ev :: post'
       end.
Proof.
  induction_on_run;
    intros pre data post E;
    try (destruct pre as [|a [|b pre]]; discriminate E);
    destruct (verdict_carry_on cfg ev0 fw Hv)
      as [_ [(-> & Hnd & _)|(-> & Hdt & _)]];
    simpl in E; rewrite ?Ht.
  - peel E pre. peel E pre.
  - peel E pre. peel E pre.
    + injection E as <- <-. split; [exists [], ev0; auto | auto].
    + peel E pre.
  - peel E pre. peel E pre. peel E pre.
  - peel E pre. peel E pre.
    + injection E as <- <-. split; [exists [], ev0; auto |].
      right. exists p, []. auto.
    + peel E pre. peel E pre.
  - peel E pre. peel E pre.
    destruct (IH _ _ _ E) as ((pre' & ev & -> & Hd' & Hc) & P).
    rewrite Ht in P. split; [|exact P].
    exists (did_read ev0 :: did_poll p :: pre'), ev. auto.
  - peel E pre. peel E pre.
    + injection E as <- <-. split; [exists [], ev0; auto |].
      right. exists p, t. split; [reflexivity|].
      exact (Runs_starts_with_read _ _ _ _ _ HR).
    + peel E pre.
      destruct (IH _ _ _ E) as ((pre' & ev & -> & Hd' & Hc) & P).
      rewrite Ht in P. split; [|exact P].
      exists (did_read ev0 :: did_append (chunk_of ev0) :: did_poll p :: pre'),
        ev. auto.
  - peel E pre.
    destruct (IH _ _ _ E) as ((pre' & ev & -> & Hd' & Hc) & P).
    rewrite Ht in P. split; [|exact P].
    exists (did_read ev0 :: pre'), ev. auto.
  - peel E pre. peel E pre.
    + injection E as <- <-. split; [exists [], ev0; auto |].
      destruct (Runs_starts_with_read _ _ _ _ _ HR) as [->|(ev & t' & ->)];
        eauto.
    + destruct (IH _ _ _ E) as ((pre' & ev & -> & Hd' & Hc) & P).
      rewrite Ht in P. split; [|exact P].
      exists (did_read ev0 :: did_append (chunk_of ev0) :: pre'), ev. auto.
Qed.

(** A read that delivered bytes is followed at once by the call of
    [append] with its chunk. *)
Lemma Runs_data_read_forwarded cfg this w t r :
  Runs cfg this w t r ->
  forall pre ev post,
    t = pre ++ did_read ev :: post ->
    is_data ev = true ->
    bytes_read (read_result ev) <> 0%Z ->
    exists post', post = did_append (chunk_of ev) :: post'.
Proof.
  induction_on_run;
    intros pre ev post E Hdt Hb;
    try (destruct pre; discriminate E);
    pose proof (verdict_of_data cfg ev Hdt Hb) as Hv';
    peel E pre;
    try (injection E as <- <-; rewrite Hv' in Hv; try discriminate Hv;
         injection Hv as <-; simpl; eauto; fail);
    try (destruct pre; discriminate E);
    destruct (verdict_carry_on cfg ev0 fw Hv)
      as [_ [(-> & _)|(-> & _)]];
    simpl in E.
  - destruct pre; discriminate E.
  - peel E pre. destruct pre; discriminate E.
  - peel E pre. destruct pre; discriminate E.
  - peel E pre. peel E pre. destruct pre; discriminate E.
  - peel E pre. eauto.
  - peel E pre. peel E pre. eauto.
  - eauto.
  - peel E pre. eauto.
Qed.

(** *** Runs in which every read before end of file lets the loop go on *)

Lemma pipe_mode_passes cfg w :
  pipe_mode_matches cfg w = true -> mode_assertion_passes cfg w = true.
Proof. unfold mode_assertion_passes. intros ->. apply orb_true_r. Qed.

Lemma waits_succeed_S cfg n ps :
  waits_succeed cfg (S n) ps = true ->
  match target cfg with
  | windows => forall m qs, waits_succeed cfg m qs = true
  | posix => exists p ps', ps = p :: ps'
                           /\ poll_verdict_of cfg p = None
                           /\ waits_succeed cfg n ps' = true
  end.
Proof.
  unfold waits_succeed. destruct (target cfg); [|reflexivity].
  destruct ps as [|p ps']; [discriminate|]. simpl.
  intros H. apply andb_prop in H as [Hl H].
  apply andb_prop in H as [Hp H].
  exists p, ps'. split; [reflexivity|].
  split; [now apply poll_succeeds_verdict|].
  now rewrite Hl, H.
Qed.

Lemma run_through cfg : forall body this w eof rest,
  done_ this = false ->
  mode_assertion_passes cfg w = true ->
  reads w = body ++ eof :: rest ->
  is_end_of_file eof = true ->
  Forall (fun ev => exists fw, verdict_of cfg ev = carry_on fw) body ->
  waits_succeed cfg (List.length body) (polls w) = true ->
  returned (outcome cfg this w) = true
  /\ reads_in (trace cfg this w) = body ++ [eof]
  /\ appended (trace cfg this w) = map chunk_of (filter is_data body).
Proof.
  unfold trace, outcome.
  induction body as [|ev body IH]; intros this w eof rest Hd Hm Hr He Hb Hw;
    rewrite run_unfold, Hd, Hm, Hr; cbn [app].
  - apply (verdict_stop_iff cfg) in He. rewrite He. auto.
  - inversion Hb as [|? ? [fw Hv] Hb']; subst. rewrite Hv.
    destruct (verdict_carry_on cfg ev fw Hv) as [_ Hfw].
    apply waits_succeed_S in Hw.
    destruct (target cfg).
    + destruct Hw as (p & ps & -> & Hp & Hw). rewrite Hp.
      specialize (IH this (after_poll (after_read w (body ++ eof :: rest)) ps)
                     eof rest Hd Hm eq_refl He Hb' Hw).
      destruct (run cfg this _) as [t r]. simpl in IH.
      destruct IH as (R & I & A). split; [exact R|].
      destruct Hfw as [(-> & Hnd & _)|(-> & Hdt & _)]; simpl;
        rewrite ?Hnd, ?Hdt, I, A; auto.
    + specialize (IH this (after_read w (body ++ eof :: rest))
                     eof rest Hd Hm eq_refl He Hb' (Hw _ _)).
      destruct (run cfg this _) as [t r]. simpl in IH.
      destruct IH as (R & I & A). split; [exact R|].
      destruct Hfw as [(-> & Hnd & _)|(-> & Hdt & _)]; simpl;
        rewrite ?Hnd, ?Hdt, I, A; auto.
Qed.

(** *** Runs on small inputs *)

(** With [poll]: every turn that does not end the loop waits for the pipe
    before the next read. *)
Example run_on_linux :
  run (linux true) new_event_loop
      {| is_pipe_non_blocking := true;
         reads := [read_error "EAGAIN" 11; read_chunk "ab"; read_end_of_file];
         polls := [pollin; pollin] |}
  = ([did_read (read_error "EAGAIN" 11); did_poll pollin;
      did_read (read_chunk "ab"); did_append "ab"; did_poll pollin;
      did_read read_end_of_file],
     value {| done_ := true |}
           {| is_pipe_non_blocking := true; reads := []; polls := [] |}).
Proof. reflexivity. Qed.

(** Without [poll] the pipe is blocking and there is nothing to wait
    for. *)
Example run_on_windows :
  run (win32 true) new_event_loop
      {| is_pipe_non_blocking := false;
         reads := [read_chunk "ab"; read_chunk "cd"; read_end_of_file];
         polls := [] |}
  = ([did_read (read_chunk "ab"); did_append "ab";
      did_read (read_chunk "cd"); did_append "cd";
      did_read read_end_of_file],
     value {| done_ := true |}
           {| is_pipe_non_blocking := false; reads := []; polls := [] |}).
Proof. reflexivity. Qed.

(** A pipe that is never closed leaves [run] waiting. *)
Example run_left_waiting :
  run (linux true) new_event_loop
      {| is_pipe_non_blocking := true;
         reads := [read_chunk "ab"];
         polls := [] |}
  = ([did_read (read_chunk "ab"); did_append "ab"], blocked).
Proof. reflexivity. Qed.

(** A failed wait ends the process. *)
Example run_with_failed_poll :
  run (linux true) new_event_loop
      {| is_pipe_non_blocking := true;
         reads := [read_chunk "ab"; read_end_of_file];
         polls := [{| rc := -1; revents := 0 |}] |}
  = ([did_read (read_chunk "ab"); did_append "ab";
      did_poll {| rc := -1; revents := 0 |}],
     abort unimplemented).
Proof. reflexivity. Qed.

(** On a blocking pipe the code holds the retryable condition to be
    unreachable. *)
Example retry_on_blocking_pipe :
  run {| target := windows; QLJS_HAVE_UNISTD_H := true;
         assertions_enabled := true;
         EAGAIN := 11; POLLIN := 1; POLLERR := 8 |}
      new_event_loop
      {| is_pipe_non_blocking := false;
         reads := [read_error "EAGAIN" 11; read_end_of_file];
         polls := [] |}
  = ([did_read (read_error "EAGAIN" 11)], abort unreachable).
Proof. reflexivity. Qed.

(** *** Claims *)



(** C2, as the code has it.  For every sequence of reads that each
    deliver at least one byte (the loop asserts that a successful read is
    not empty), followed by end of file, with every readiness wait
    succeeding: [run] makes all the reads and returns, and [append] has
    received exactly the chunks read, one call per read, each the bytes
    the read left in the buffer, in read order, none of them empty. *)
Theorem chunks_are_forwarded_in_order cfg w body eof rest :
  pipe_mode_matches cfg w = true ->
  reads w = body ++ eof :: rest ->
  forallb carries_bytes body = true ->
  is_end_of_file eof = true ->
  waits_succeed cfg (List.length body) (polls w) = true ->
  returned (outcome cfg new_event_loop w) = true
  /\ reads_in (trace cfg new_event_loop w) = body ++ [eof]
  /\ appended (trace cfg new_event_loop w) = map chunk_of body
  /\ Forall (fun data => data <> EmptyString)
            (appended (trace cfg new_event_loop w))
  /\ (forall chunks,
        body = map read_chunk chunks ->
        appended (trace cfg new_event_loop w) = chunks).
Proof.
  intros Hm Hr Hb He Hw.
  rewrite forallb_forall in Hb.
  destruct (run_through cfg body new_event_loop w eof rest)
    as (R & I & A); auto.
  - now apply pipe_mode_passes.
  - apply Forall_forall. intros ev Hin.
    destruct (carries_bytes_spec ev (Hb ev Hin)) as (Hd & Hz & _).
    eexists. now apply verdict_of_data.
  - assert (F : filter is_data body = body).
    { clear - Hb. induction body as [|ev l IH]; [reflexivity|]. simpl.
      destruct (carries_bytes_spec ev (Hb ev (or_introl eq_refl)))
        as (-> & _).
      f_equal. apply IH. intros x Hx. apply Hb. now right. }
    rewrite F in A. repeat split; auto.
    + rewrite A. apply Forall_forall. intros data Hin.
      apply in_map_iff in Hin as (ev & <- & Hin).
      now destruct (carries_bytes_spec ev (Hb ev Hin)) as (_ & _ & Hne).
    + intros chunks ->. rewrite A, map_map.
      rewrite <- (map_id chunks) at 2. apply map_ext.
      exact chunk_of_read_chunk.
Qed.

Lemma chunks_are_forwarded_in_order_witness :
  let w := {| is_pipe_non_blocking := true;
              reads := [read_chunk "ab"; read_chunk "cd"; read_end_of_file];
              polls := [pollin; pollin] |} in
  returned (outcome (linux true) new_event_loop w) = true
  /\ appended (trace (linux true) new_event_loop w) = ["ab"; "cd"].
Proof.
  intros w.
  destruct (chunks_are_forwarded_in_order (linux true) w
              [read_chunk "ab"; read_chunk "cd"] read_end_of_file []
              eq_refl eq_refl eq_refl eq_refl eq_refl)
    as (R & _ & _ & _ & A).
  split; [exact R | exact (A ["ab"; "cd"] eq_refl)].
Defined.

(** C2 as stated fails on the code.  For the source that answers "ab",
    then an empty successful read, then "cd", then end of file: with
    assertions enabled the loop terminates the process at the empty read,
    after forwarding "ab" only; with assertions disabled it forwards the
    empty chunk to [append].  When the empty read is reported the way a
    zero-byte read of a pipe is, as end of file, [run] returns there and
    "cd" is never read.  In no case does [append] receive exactly "ab"
    then "cd" with [run] returning. *)
Lemma empty_read_counterexample :
  let polls3 := [pollin; pollin; pollin] in
  let w := {| is_pipe_non_blocking := true;
              reads := [read_chunk "ab"; read_chunk ""; read_chunk "cd";
                        read_end_of_file];
              polls := polls3 |} in
  let w' := {| is_pipe_non_blocking := true;
               reads := [read_chunk "ab"; read_end_of_file; read_chunk "cd";
                         read_end_of_file];
               polls := polls3 |} in
  (outcome (linux true) new_event_loop w = abort assertion_failed
   /\ appended (trace (linux true) new_event_loop w) = ["ab"])
  /\ (returned (outcome (linux false) new_event_loop w) = true
      /\ appended (trace (linux false) new_event_loop w) = ["ab"; ""; "cd"])
  /\ (returned (outcome (linux true) new_event_loop w') = true
      /\ appended (trace (linux true) new_event_loop w') = ["ab"])
  /\ ~ (returned (outcome (linux true) new_event_loop w) = true
        /\ appended (trace (linux true) new_event_loop w) = ["ab"; "cd"])
  /\ ~ (returned (outcome (linux false) new_event_loop w) = true
        /\ appended (trace (linux false) new_event_loop w) = ["ab"; "cd"])
  /\ ~ (returned (outcome (linux true) new_event_loop w') = true
        /\ appended (trace (linux true) new_event_loop w') = ["ab"; "cd"]).
Proof.
  cbv zeta.
  repeat split; try reflexivity; intros [H1 H2];
    vm_compute in H1, H2; discriminate.
Qed.

(** C3.  In a non-blocking build, reads that report the retryable
    condition are not fatal and never reach the delegate: when the pipe
    answers with any number of retryable failures (two, in the claim), then
    a chunk, then end of file, and every readiness wait succeeds, [run]
    makes all these reads, returns, and [append] has been called exactly
    once, with the chunk. *)
Theorem retries_are_invisible cfg w retries d eof rest :
  QLJS_EVENT_LOOP_READ_PIPE_NON_BLOCKING cfg = true ->
  pipe_mode_matches cfg w = true ->
  reads w = retries ++ d :: eof :: rest ->
  forallb (is_retry cfg) retries = true ->
  is_data d = true ->
  bytes_read (read_result d) <> 0%Z ->
  is_end_of_file eof = true ->
  waits_succeed cfg (S (List.length retries)) (polls w) = true ->
  returned (outcome cfg new_event_loop w) = true
  /\ reads_in (trace cfg new_event_loop w) = retries ++ [d; eof]
  /\ appended (trace cfg new_event_loop w) = [chunk_of d].
Proof.
  intros Hn Hm Hr Hret Hd Hb He Hw.
  rewrite forallb_forall in Hret.
  destruct (run_through cfg (retries ++ [d]) new_event_loop w eof rest)
    as (R & I & A); auto.
  - now apply pipe_mode_passes.
  - rewrite <- app_assoc. exact Hr.
  - apply Forall_app. split.
    + apply Forall_forall. intros ev Hin. exists [].
      now apply verdict_of_retry; auto.
    + constructor; [|constructor]. eexists. now apply verdict_of_data.
  - rewrite length_app, Nat.add_comm. exact Hw.
  - split; [exact R|]. split.
    + rewrite I, <- app_assoc. reflexivity.
    + rewrite A, filter_app, map_app. simpl. rewrite Hd. simpl.
      replace (filter is_data retries) with (@nil read_event);
        [reflexivity|].
      symmetry. clear - Hret Hn. induction retries as [|ev l IH];
        [reflexivity|]. simpl.
      destruct (verdict_of_retry cfg ev (Hret ev (or_introl eq_refl)) Hn)
        as [_ ->].
      apply IH. intros x Hx. apply Hret. now right.
Qed.

Lemma retries_are_invisible_witness :
  let w := {| is_pipe_non_blocking := true;
              reads := [read_error "EAGAIN" 11; read_error "EAGAIN" 11;
                        read_chunk "x"; read_end_of_file];
              polls := [pollin; pollin; pollin] |} in
  returned (outcome (linux true) new_event_loop w) = true
  /\ reads_in (trace (linux true) new_event_loop w)
     = [read_error "EAGAIN" 11; read_error "EAGAIN" 11]
       ++ [read_chunk "x"; read_end_of_file]
  /\ appended (trace (linux true) new_event_loop w) = ["x"].
Proof.
  intros w.
  apply (retries_are_invisible (linux true) w
           [read_error "EAGAIN" 11; read_error "EAGAIN" 11]
           (read_chunk "x") read_end_of_file []);
    try reflexivity.
  simpl. discriminate.
Defined.

(** C5, as the code has it.  A read that delivers a non-empty chunk is
    followed at once by the call of [append] with that chunk, and every
    call of [append] comes right after the read whose chunk it forwards.
    What follows the call depends on the build: with [poll] (non-blocking
    pipe) it is the readiness wait, and only after the wait the next
    read; without it (blocking pipe) it is the next read. *)
Theorem forwarding_then_wait_then_read cfg this w :
  (forall pre ev post,
      trace cfg this w = pre ++ did_read ev :: post ->
      is_data ev = true ->
      bytes_read (read_result ev) <> 0%Z ->
      exists post', post = did_append (chunk_of ev) :: post')
  /\ (forall pre data post,
        trace cfg this w = pre ++ did_append data :: post ->
        (exists pre' ev,
            pre = pre' ++ [did_read ev]
            /\ is_data ev = true /\ data = chunk_of ev)
        /\ match target cfg with
           | posix =>
               post = []
               \/ exists p post',
                    post = did_poll p :: post'
                    /\ (post' = []
                        \/ exists ev post'', post' = did_read ev :: post'')
           | windows =>
               post = [] \/ exists ev post', post = did_read ev :: post'
           end).
Proof.
  pose proof (run_Runs cfg this w) as R. split.
  - exact (Runs_data_read_forwarded _ _ _ _ _ R).
  - exact (Runs_append_position _ _ _ _ _ R).
Qed.

Lemma forwarding_then_wait_then_read_witness :
  let w := {| is_pipe_non_blocking := true;
              reads := [read_chunk "ab"; read_end_of_file];
              polls := [pollin] |} in
  exists post',
    [did_append "ab"; did_poll pollin; did_read read_end_of_file]
    = did_append (chunk_of (read_chunk "ab")) :: post'.
Proof.
  intros w.
  apply (proj1 (forwarding_then_wait_then_read (linux true) new_event_loop w)
           [] (read_chunk "ab")
           [did_append "ab"; did_poll pollin; did_read read_end_of_file]).
  - reflexivity.
  - reflexivity.
  - simpl. discriminate.
Defined.

(** C5 as stated fails on the code.  In the build with [poll], after
    "ab" has been forwarded the next thing the loop does is the readiness
    wait, not the next read. *)
Lemma wait_after_forwarding_counterexample :
  let w := {| is_pipe_non_blocking := true;
              reads := [read_chunk "ab"; read_end_of_file];
              polls := [pollin] |} in
  trace (linux true) new_event_loop w
  = [did_read (read_chunk "ab"); did_append "ab"; did_poll pollin;
     did_read read_end_of_file]
  /\ ~ (forall pre data next post,
          trace (linux true) new_event_loop w
          = pre ++ did_append data :: next :: post ->
          exists ev, next = did_read ev).
Proof.
  cbv zeta. split; [reflexivity|].
  intros H.
  destruct (H [did_read (read_chunk "ab")] "ab" (did_poll pollin)
              [did_read read_end_of_file] eq_refl) as [ev E].
  discriminate E.
Qed.

(** C6.  The loop has the two states [RUNNING] (initial) and [DONE]: its
    only data member is the completion flag.  [read_from_pipe], the one
    operation that writes the flag, leaves it set exactly when it was set
    before or the read reported end of file, so the flag is set only by
    a read at end of file and is never cleared.  [run] returns only in
    state [DONE], and from [RUNNING] only after a read at end of file. *)
Theorem completion_flag_state_machine cfg this w :
  state_of new_event_loop = RUNNING
  /\ (state_of this = RUNNING \/ state_of this = DONE)
  /\ (forall that, state_of this = state_of that -> this = that)
  /\ (forall t this' w',
        read_from_pipe cfg this w = (t, value this' w') ->
        done_ this'
        = done_ this || existsb is_end_of_file (reads_in t))
  /\ (forall this' w',
        outcome cfg this w = value this' w' ->
        state_of this' = DONE
        /\ done_ this'
           = done_ this
             || existsb is_end_of_file (reads_in (trace cfg this w))).
Proof.
  split; [reflexivity|]. split; [|split; [|split]].
  - unfold state_of. destruct (done_ this); auto.
  - intros that. unfold state_of. destruct this as [[|]], that as [[|]];
      simpl; congruence.
  - intros t this' w'. rewrite read_from_pipe_unfold.
    destruct (mode_assertion_passes cfg w); [|discriminate].
    destruct (reads w) as [|ev rest]; [discriminate|].
    pose proof (verdict_of_spec cfg ev) as S.
    destruct (verdict_of cfg ev) as [|fw|why]; [| |discriminate];
      intros E; injection E as <- <- <-.
    + inversion S as [He| | | | |]. simpl. rewrite He. simpl.
      now rewrite orb_true_r.
    + inversion S as [ | He _ _ _ | | | | He _ _ _ _ ]; subst; simpl;
        rewrite He; simpl; now rewrite orb_false_r.
  - intros this' w' Ho.
    pose proof (run_Runs cfg this w) as R. rewrite Ho in R.
    destruct (done_ this) eqn:Hd.
    + destruct (run_when_done cfg this w Hd) as [Et Eo].
      rewrite Eo in Ho. injection Ho as <- <-.
      unfold state_of. rewrite Hd. auto.
    + destruct (Runs_returned _ _ _ _ _ R Hd _ _ eq_refl)
        as (D & pre & ev & E & He).
      unfold state_of. rewrite D. split; [reflexivity|].
      rewrite E, reads_in_app, existsb_app. simpl. rewrite He.
      simpl. now rewrite orb_true_r.
Qed.

Lemma completion_flag_state_machine_witness :
  let w := {| is_pipe_non_blocking := true;
              reads := [read_chunk "ab"; read_end_of_file];
              polls := [pollin] |} in
  state_of {| done_ := true |} = DONE
  /\ done_ {| done_ := true |}
     = done_ new_event_loop
       || existsb is_end_of_file
            (reads_in (trace (linux true) new_event_loop w)).
Proof.
  intros w.
  apply (proj2 (proj2 (proj2 (proj2
           (completion_flag_state_machine (linux true) new_event_loop w))))
           {| done_ := true |}
           {| is_pipe_non_blocking := true; reads := []; polls := [] |}).
  reflexivity.
Defined.

(** C8.  A failed read that is neither end of file nor the retryable
    condition terminates the process: it is the last thing the loop does
    (no further read, wait or [append] follows it in any run), and the
    run ends in [QLJS_UNIMPLEMENTED] instead of returning. *)
Theorem read_failure_is_fatal cfg this w pre ev post :
  trace cfg this w = pre ++ did_read ev :: post ->
  is_failure ev = true ->
  is_retry cfg ev = false ->
  post = []
  /\ outcome cfg this w = abort unimplemented
  /\ appended (trace cfg this w) = appended pre.
Proof.
  intros E Hf Hnr.
  destruct (Runs_fatal_read_last _ _ _ _ _ (run_Runs cfg this w)
              _ _ _ E Hf Hnr) as [-> Ho].
  split; [reflexivity|]. split; [exact Ho|].
  rewrite E, appended_app. simpl. apply app_nil_r.
Qed.

Lemma read_failure_is_fatal_witness :
  let w := {| is_pipe_non_blocking := true;
              reads := [read_chunk "ab"; read_error "EIO" 5;
                        read_chunk "cd"; read_end_of_file];
              polls := [pollin; pollin; pollin] |} in
  let pre := [did_read (read_chunk "ab"); did_append "ab"; did_poll pollin] in
  @nil action = []
  /\ outcome (linux true) new_event_loop w = abort unimplemented
  /\ appended (trace (linux true) new_event_loop w) = appended pre.
Proof.
  intros w pre.
  apply (read_failure_is_fatal (linux true) new_event_loop w pre
           (read_error "EIO" 5) []); reflexivity.
Defined.

(** C10.  When the completion flag of an [event_loop] is already set,
    [run()] returns at once: it does nothing (no read of the pipe, no
    readiness wait, no call of [append]), takes no answer from the world,
    and leaves the loop as it was. *)
Theorem run_when_done_is_a_no_op cfg this w :
  done_ this = true ->
  trace cfg this w = [] /\ outcome cfg this w = value this w.
Proof. exact (run_when_done cfg this w). Qed.

Lemma run_when_done_is_a_no_op_witness :
  let w := {| is_pipe_non_blocking := true;
              reads := [read_chunk "ab"; read_end_of_file];
              polls := [pollin] |} in
  trace (linux true) {| done_ := true |} w = []
  /\ outcome (linux true) {| done_ := true |} w = value {| done_ := true |} w.
Proof.
  apply (run_when_done_is_a_no_op (linux true) {| done_ := true |}).
  reflexivity.
Defined.

End Event_loop_facts.

(** ** The event loop: accounting for a run *)

Module Event_loop_accounts_facts.

Import Event_loop Event_loop_accounts Event_loop_facts.
Local Open Scope list_scope.

Lemma polls_in_app t1 t2 : polls_in (t1 ++ t2) = polls_in t1 ++ polls_in t2.
Proof.
  induction t1 as [|[ev|d|p] t1 IH]; simpl; rewrite ?IH; reflexivity.
Qed.

Lemma bytes_of_app l1 l2 :
  bytes_of (l1 ++ l2) = (bytes_of l1 ++ bytes_of l2)%string.
Proof.
  induction l1 as [|x l1 IH]; simpl; [reflexivity|].
  rewrite IH. clear. induction x as [|c x IH]; simpl; congruence.
Qed.

Lemma string8_view_0 data : string8_view data 0 = EmptyString.
Proof. destruct data; reflexivity. Qed.

Lemma die_data cfg ev why :
  verdict_of cfg ev = die why ->
  is_data ev = false
  \/ (is_data ev = true /\ bytes_read (read_result ev) = 0%Z
      /\ chunk_of ev = EmptyString).
Proof.
  intros Hv. pose proof (verdict_of_spec cfg ev) as S. rewrite Hv in S.
  inversion S as [ | | He Hd Hr Hn | He Hd Hf Hr | He Hd Hf Hr Ha Hz | ];
    subst; auto.
  right. unfold chunk_of, narrow_cast. rewrite Hz. simpl.
  now rewrite string8_view_0.
Qed.

Lemma stop_data cfg ev : verdict_of cfg ev = stop_done -> is_data ev = false.
Proof.
  intros Hv. apply verdict_stop_iff in Hv. unfold is_data, is_end_of_file in *.
  now rewrite Hv.
Qed.

Lemma Runs_bytes cfg this w t r :
  Runs cfg this w t r ->
  bytes_of (appended t)
  = bytes_of (map chunk_of (filter is_data (reads_in t)))
  /\ (Forall (fun ev => is_data ev = true ->
                        bytes_read (read_result ev) <> 0%Z) (reads_in t) ->
      appended t = map chunk_of (filter is_data (reads_in t))).
Proof.
  induction_on_run;
    try (split; [reflexivity | intros _; reflexivity]).
  - simpl. rewrite (stop_data _ _ Hv). auto.
  - simpl. destruct (die_data _ _ _ Hv) as [->|(Hdt & Hz & Hc)]; [auto|].
    rewrite Hdt. simpl. rewrite Hc. split; [reflexivity|].
    intros H. inversion H as [|? ? H0 _]; subst. now destruct (H0 Hdt).
  - destruct (verdict_carry_on _ _ _ Hv)
      as [_ [(-> & Hdt & _)|(-> & Hdt & _)]];
      simpl; rewrite Hdt; auto.
  - destruct (verdict_carry_on _ _ _ Hv)
      as [_ [(-> & Hdt & _)|(-> & Hdt & _)]];
      simpl; rewrite Hdt; auto.
  - destruct IH as [IHb IHl].
    destruct (verdict_carry_on _ _ _ Hv)
      as [_ [(-> & Hdt & _)|(-> & Hdt & _)]];
      simpl; rewrite Hdt; simpl; rewrite ?IHb; (split; [reflexivity|]);
      intros H; inversion H as [|? ? _ H']; subst; now rewrite (IHl H').
  - destruct IH as [IHb IHl].
    destruct (verdict_carry_on _ _ _ Hv)
      as [_ [(-> & Hdt & _)|(-> & Hdt & _)]];
      simpl; rewrite Hdt; simpl; rewrite ?IHb; (split; [reflexivity|]);
      intros H; inversion H as [|? ? _ H']; subst; now rewrite (IHl H').
Qed.

(** X1.  Whatever ends a run (return, termination of the process, or a
    call left without answer), the bytes [append] has received, laid end
    to end, are exactly the bytes of the reads that delivered data, in
    read order: no byte is lost, repeated or moved.  When none of those
    reads was empty, the chunks themselves are the same, one call per
    read. *)
Theorem no_byte_is_lost cfg this w :
  bytes_of (appended (trace cfg this w))
  = bytes_of (map chunk_of (filter is_data (reads_in (trace cfg this w))))
  /\ (Forall (fun ev => is_data ev = true ->
                        bytes_read (read_result ev) <> 0%Z)
             (reads_in (trace cfg this w)) ->
      appended (trace cfg this w)
      = map chunk_of (filter is_data (reads_in (trace cfg this w)))).
Proof. exact (Runs_bytes _ _ _ _ _ (run_Runs cfg this w)). Qed.

Lemma no_byte_is_lost_witness :
  let w := {| is_pipe_non_blocking := true;
              reads := [read_chunk "ab"; read_error "EAGAIN" 11;
                        read_chunk "cd"; read_error "EIO" 5;
                        read_chunk "ef"];
              polls := [pollin; pollin; pollin; pollin] |} in
  outcome (linux true) new_event_loop w = abort unimplemented
  /\ appended (trace (linux true) new_event_loop w) = ["ab"; "cd"].
Proof.
  intros w. split; [reflexivity|].
  apply (proj2 (no_byte_is_lost (linux true) new_event_loop w)).
  repeat constructor; simpl; discriminate.
Defined.


(** *** Readiness waits *)

Lemma poll_verdict_cases cfg p :
  (poll_succeeds cfg p = true /\ poll_verdict_of cfg p = None)
  \/ (poll_succeeds cfg p = false
      /\ exists why, poll_verdict_of cfg p = Some why /\ why <> unreachable).
Proof.
  destruct (poll_verdict_of cfg p) as [why|] eqn:E.
  - right. split.
    + destruct (poll_succeeds cfg p) eqn:S; [|reflexivity].
      apply poll_succeeds_verdict in S. congruence.
    + exists why. split; [reflexivity|].
      unfold poll_verdict_of in E.
      repeat match type of E with
             | (if ?b then _ else _) = _ => destruct b
             end; congruence.
  - left. split; [now apply poll_succeeds_verdict | reflexivity].
Qed.

Lemma Runs_wait_position cfg this w t r :
  Runs cfg this w t r ->
  forall pre p post,
    t = pre ++ did_poll p :: post ->
    target cfg = posix
    /\ (exists pre' a, pre = pre' ++ [a] /\ is_wait a = false)
    /\ (poll_succeeds cfg p = true ->
        post = [] \/ exists ev post', post = did_read ev :: post')
    /\ (poll_succeeds cfg p = false ->
        post = []
        /\ exists why, poll_verdict_of cfg p = Some why /\ r = abort why).
Proof.
  induction_on_run; intros pre q post E;
    try (destruct pre as [|a [|b pre]]; discriminate E);
    destruct (verdict_carry_on cfg ev0 fw Hv)
      as [_ [(-> & Hnd & _)|(-> & Hdt & _)]];
    simpl in E.
  - peel E pre. peel E pre.
  - peel E pre. peel E pre. peel E pre.
  - (* the wait fails, nothing was forwarded *)
    peel E pre. peel E pre; [|peel E pre].
    injection E as <- <-. split; [exact Ht|].
    split; [exists [], (did_read ev0); auto|].
    destruct (poll_verdict_cases cfg p) as [[_ N]|[F (why' & S & _)]];
      [congruence|].
    split; [congruence|]. intros _. split; [reflexivity|].
    exists why. split; [exact Hpv|reflexivity].
  - peel E pre. peel E pre. peel E pre; [|peel E pre].
    injection E as <- <-. split; [exact Ht|].
    split; [exists [did_read ev0], (did_append (chunk_of ev0)); auto|].
    destruct (poll_verdict_cases cfg p) as [[_ N]|[F (why' & S & _)]];
      [congruence|].
    split; [congruence|]. intros _. split; [reflexivity|].
    exists why. split; [exact Hpv|reflexivity].
  - (* the wait succeeds *)
    peel E pre. peel E pre.
    + injection E as <- <-. split; [exact Ht|].
      split; [exists [], (did_read ev0); auto|].
      destruct (poll_verdict_cases cfg p) as [[S _]|[_ (why' & S & _)]];
        [|congruence].
      split; [|congruence]. intros _.
      exact (Runs_starts_with_read _ _ _ _ _ HR).
    + destruct (IH _ _ _ E) as (T & (pre' & a & -> & Ha) & P).
      split; [exact T|]. split; [|exact P].
      exists (did_read ev0 :: did_poll p :: pre'), a. auto.
  - peel E pre. peel E pre. peel E pre.
    + injection E as <- <-. split; [exact Ht|].
      split; [exists [did_read ev0], (did_append (chunk_of ev0)); auto|].
      destruct (poll_verdict_cases cfg p) as [[S _]|[_ (why' & S & _)]];
        [|congruence].
      split; [|congruence]. intros _.
      exact (Runs_starts_with_read _ _ _ _ _ HR).
    + destruct (IH _ _ _ E) as (T & (pre' & a & -> & Ha) & P).
      split; [exact T|]. split; [|exact P].
      exists (did_read ev0 :: did_append (chunk_of ev0) :: did_poll p :: pre'),
        a. auto.
  - (* without poll *)
    peel E pre.
    destruct (IH _ _ _ E) as (T & _). congruence.
  - peel E pre. peel E pre.
    destruct (IH _ _ _ E) as (T & _). congruence.
Qed.

(** X2.  Every readiness wait of a run is made by the build with [poll],
    right after a read or a call of [append] (never first, never twice
    in a row).  After a wait that succeeds the next thing the loop does
    is a read.  A wait that does not succeed (return value -1, or none
    with assertions enabled, or [POLLERR] without [POLLIN]) is the last
    thing the run does and terminates the process; [POLLIN] together
    with [POLLERR] counts as success. *)
Theorem what_follows_a_wait cfg this w pre p post :
  trace cfg this w = pre ++ did_poll p :: post ->
  target cfg = posix
  /\ (exists pre' a, pre = pre' ++ [a] /\ is_wait a = false)
  /\ (poll_succeeds cfg p = true ->
      post = [] \/ exists ev post', post = did_read ev :: post')
  /\ (poll_succeeds cfg p = false ->
      post = []
      /\ exists why,
           poll_verdict_of cfg p = Some why
           /\ outcome cfg this w = abort why)
  /\ ((rc p =? -1)%Z = false ->
      (rc p >? 0)%Z = true ->
      (Z.land (revents p) (POLLIN cfg) =? 0)%Z = false ->
      poll_succeeds cfg p = true).
Proof.
  intros E.
  destruct (Runs_wait_position _ _ _ _ _ (run_Runs cfg this w) _ _ _ E)
    as (T & B & S & F).
  split; [exact T|]. split; [exact B|]. split; [exact S|].
  split; [exact F|].
  intros H1 H2 H3. unfold poll_succeeds. rewrite H1, H2, H3.
  simpl. now rewrite orb_true_r.
Qed.

Lemma what_follows_a_wait_witness :
  let both := {| rc := 1; revents := 9 |} in
  let w := {| is_pipe_non_blocking := true;
              reads := [read_chunk "ab"; read_end_of_file];
              polls := [both] |} in
  poll_succeeds (linux true) both = true
  /\ ([did_read read_end_of_file] = []
      \/ exists ev post', [did_read read_end_of_file] = did_read ev :: post').
Proof.
  intros both w.
  destruct (what_follows_a_wait (linux true) new_event_loop w
              [did_read (read_chunk "ab"); did_append "ab"] both
              [did_read read_end_of_file] eq_refl)
    as (_ & _ & S & _ & B).
  split; [apply B; reflexivity | apply S; apply B; reflexivity].
Defined.

Lemma Runs_counts cfg this w t r :
  Runs cfg this w t r ->
  (target cfg = windows -> polls_in t = [])
  /\ List.length (polls_in t) <= List.length (reads_in t)
  /\ (done_ this = false -> returned r = true -> target cfg = posix ->
      List.length (reads_in t) = S (List.length (polls_in t))).
Proof.
  induction_on_run.
  - simpl. split; [auto|]. split; [lia|]. congruence.
  - simpl. split; [auto|]. split; [lia|]. discriminate.
  - simpl. split; [auto|]. split; [lia|]. discriminate.
  - simpl. split; [auto|]. split; [lia|]. reflexivity.
  - simpl. split; [auto|]. split; [lia|]. discriminate.
  - destruct (verdict_carry_on cfg ev0 fw Hv) as [_ [(-> & _)|(-> & _)]];
      simpl; (split; [auto|]; split; [lia|]; discriminate).
  - destruct (verdict_carry_on cfg ev0 fw Hv) as [_ [(-> & _)|(-> & _)]];
      simpl; (split; [congruence|]; split; [lia|]; discriminate).
  - destruct IH as (W & L & R).
    destruct (verdict_carry_on cfg ev0 fw Hv) as [_ [(-> & _)|(-> & _)]];
      simpl; (split; [congruence|]; split; [lia|]);
      intros D1 D2 D3; now rewrite (R D1 D2 D3).
  - destruct IH as (W & L & R).
    destruct (verdict_carry_on cfg ev0 fw Hv) as [_ [(-> & _)|(-> & _)]];
      simpl; (split; [auto|]; split; [lia|]); congruence.
Qed.

(** X3.  The loop never waits more often than it reads: the build
    without [poll] never waits, and with [poll] a run that returns has
    made exactly one wait between each two consecutive reads, that is,
    one wait fewer than reads. *)
Theorem waits_interleave_reads cfg this w :
  (target cfg = windows -> polls_in (trace cfg this w) = [])
  /\ List.length (polls_in (trace cfg this w))
     <= List.length (reads_in (trace cfg this w))
  /\ (done_ this = false ->
      returned (outcome cfg this w) = true ->
      target cfg = posix ->
      List.length (reads_in (trace cfg this w))
      = S (List.length (polls_in (trace cfg this w)))).
Proof. exact (Runs_counts _ _ _ _ _ (run_Runs cfg this w)). Qed.

Lemma waits_interleave_reads_witness :
  let w := {| is_pipe_non_blocking := true;
              reads := [read_error "EAGAIN" 11; read_chunk "ab";
                        read_end_of_file; read_chunk "cd"];
              polls := [pollin; pollin; pollin] |} in
  List.length (reads_in (trace (linux true) new_event_loop w))
  = S (List.length (polls_in (trace (linux true) new_event_loop w))).
Proof.
  intros w.
  apply (proj2 (proj2 (waits_interleave_reads (linux true) new_event_loop w)));
    reflexivity.
Defined.

(** *** What a run leaves behind *)

Lemma Runs_leftovers cfg this w t r :
  Runs cfg this w t r ->
  forall this' w',
    r = value this' w' ->
    reads w = reads_in t ++ reads w'
    /\ polls w = polls_in t ++ polls w'
    /\ is_pipe_non_blocking w' = is_pipe_non_blocking w
    /\ done_ this' = true.
Proof.
  induction_on_run; intros this' w' E; try discriminate E.
  - injection E as <- <-. auto.
  - injection E as <- <-. simpl. auto.
  - destruct (IH _ _ E) as (R & P & M & D). simpl in R, P, M.
    destruct (verdict_carry_on cfg ev0 fw Hv)
      as [_ [(-> & _)|(-> & _)]];
      simpl; rewrite Hr, Hp, R, P; auto.
  - destruct (IH _ _ E) as (R & P & M & D). simpl in R, P, M.
    destruct (verdict_carry_on cfg ev0 fw Hv)
      as [_ [(-> & _)|(-> & _)]];
      simpl; rewrite Hr, R; auto.
Qed.

(** X4.  When [run()] returns, the answers it did not take are still in
    the world, in order: the reads and waits it made are exactly the
    first answers of the pipe and of [poll], nothing after the read at
    end of file was touched, and the pipe's mode is as it was.  The loop
    is then done, so calling [run()] again does nothing and returns the
    same state. *)
Theorem run_leaves_the_rest cfg this w this' w' :
  outcome cfg this w = value this' w' ->
  reads w = reads_in (trace cfg this w) ++ reads w'
  /\ polls w = polls_in (trace cfg this w) ++ polls w'
  /\ is_pipe_non_blocking w' = is_pipe_non_blocking w
  /\ run cfg this' w' = ([], value this' w').
Proof.
  intros E. pose proof (run_Runs cfg this w) as R. rewrite E in R.
  destruct (Runs_leftovers _ _ _ _ _ R _ _ eq_refl) as (A & B & C & D).
  repeat split; auto.
  destruct (run_when_done cfg this' w' D) as [T O].
  unfold trace, outcome in T, O. destruct (run cfg this' w') as [t r].
  simpl in T, O. congruence.
Qed.

Lemma run_leaves_the_rest_witness :
  let w := {| is_pipe_non_blocking := true;
              reads := [read_chunk "ab"; read_end_of_file; read_chunk "cd"];
              polls := [pollin; pollin] |} in
  let w' := {| is_pipe_non_blocking := true;
               reads := [read_chunk "cd"];
               polls := [pollin] |} in
  reads w = reads_in (trace (linux true) new_event_loop w) ++ reads w'
  /\ polls w = polls_in (trace (linux true) new_event_loop w) ++ polls w'
  /\ is_pipe_non_blocking w' = is_pipe_non_blocking w
  /\ run (linux true) {| done_ := true |} w'
     = ([], value {| done_ := true |} w').
Proof.
  intros w w'.
  apply (run_leaves_the_rest (linux true) new_event_loop w
           {| done_ := true |} w').
  reflexivity.
Defined.

(** *** How a run can be terminated *)

Lemma Runs_terminations cfg this w t r :
  Runs cfg this w t r ->
  forall why,
    r = abort why ->
    match why with
    | assertion_failed => assertions_enabled cfg = true
    | unreachable =>
        target cfg = windows /\ QLJS_HAVE_UNISTD_H cfg = true
        /\ exists pre ev, t = pre ++ [did_read ev] /\ is_retry cfg ev = true
    | unimplemented =>
        exists pre a, t = pre ++ [a] /\ is_unimplemented_case cfg a = true
    end.
Proof.
  induction_on_run; intros why' E; try discriminate E.
  - injection E as <-. unfold mode_assertion_passes in Hm.
    destruct (assertions_enabled cfg); [reflexivity|discriminate].
  - injection E as <-.
    pose proof (verdict_of_spec cfg ev0) as S. rewrite Hv in S.
    inversion S as [ | | He Hd' Hr' Hn | He Hd' Hf Hr' | He Hd' Hf Hr' Ha Hz | ];
      subst.
    + split; [|split].
      * unfold QLJS_EVENT_LOOP_READ_PIPE_NON_BLOCKING in Hn.
        destruct (target cfg); [discriminate|reflexivity].
      * unfold is_retry in Hr'. apply andb_prop in Hr' as [Hr' _].
        apply andb_prop in Hr' as [_ Hr']. exact Hr'.
      * exists [], ev0. auto.
    + exists [], (did_read ev0). split; [reflexivity|]. simpl.
      now rewrite Hf, Hr'.
    + exact Ha.
  - injection E as <-.
    destruct (poll_verdict_cases cfg p) as [[_ N]|[F (why' & S & U)]];
      [congruence|].
    rewrite Hpv in S. injection S as <-.
    destruct why; [| |congruence].
    + unfold poll_verdict_of in Hpv.
      destruct (rc p =? -1)%Z; [discriminate|].
      destruct (assertions_enabled cfg); [reflexivity|].
      simpl in Hpv.
      repeat match type of Hpv with
             | (if ?b then _ else _) = _ => destruct b
             end; discriminate.
    + exists (did_read ev0 :: fw), (did_poll p). split; [reflexivity|].
      simpl. now rewrite F.
  - specialize (IH _ E). destruct why'; auto.
    + destruct IH as (pre & a & -> & U).
      exists (did_read ev0 :: fw ++ did_poll p :: pre), a.
      split; [|exact U]. simpl. rewrite <- app_assoc. reflexivity.
    + destruct IH as (T & U & pre & ev & -> & R). congruence.
  - specialize (IH _ E). destruct why'; auto.
    + destruct IH as (pre & a & -> & U).
      exists (did_read ev0 :: fw ++ pre), a.
      split; [|exact U]. simpl. rewrite <- app_assoc. reflexivity.
    + destruct IH as (T & U & pre & ev & -> & R).
      split; [exact T|]. split; [exact U|].
      exists (did_read ev0 :: fw ++ pre), ev.
      split; [|exact R]. simpl. rewrite <- app_assoc. reflexivity.
Qed.

(** X5.  The three ways a run terminates the process, and when each can
    happen.  An assertion failure only in a build whose assertions
    check.  [QLJS_UNREACHABLE] only in the build for a blocking pipe
    that has [<unistd.h>], right after a read that failed with
    [EAGAIN]; never in the build with [poll].  [QLJS_UNIMPLEMENTED]
    only right after a failed read that is not the retryable condition
    or after a readiness wait that did not succeed; never after a read
    that delivered data or a call of [append]. *)
Theorem how_a_run_is_terminated cfg this w why :
  outcome cfg this w = abort why ->
  match why with
  | assertion_failed => assertions_enabled cfg = true
  | unreachable =>
      target cfg = windows /\ QLJS_HAVE_UNISTD_H cfg = true
      /\ exists pre ev,
           trace cfg this w = pre ++ [did_read ev]
           /\ is_retry cfg ev = true
  | unimplemented =>
      exists pre a,
        trace cfg this w = pre ++ [a]
        /\ is_unimplemented_case cfg a = true
  end.
Proof.
  intros E.
  exact (Runs_terminations _ _ _ _ _ (run_Runs cfg this w) why E).
Qed.

Lemma how_a_run_is_terminated_witness :
  let w := {| is_pipe_non_blocking := true;
              reads := [read_chunk "ab"; read_end_of_file];
              polls := [{| rc := 1; revents := 8 |}] |} in
  exists pre a,
    trace (linux false) new_event_loop w = pre ++ [a]
    /\ is_unimplemented_case (linux false) a = true.
Proof.
  intros w.
  apply (how_a_run_is_terminated (linux false) new_event_loop w unimplemented).
  reflexivity.
Defined.

End Event_loop_accounts_facts.

(** ** error.h: more about the table and the discarding reporter *)

Module Error_checks_facts.

Import Error Error_checks Error_facts.
Local Open Scope list_scope.

Lemma forallb_table (f : error_type -> bool) :
  forallb f QLJS_X_ERROR_TYPES = true ->
  forall K, In K QLJS_X_ERROR_TYPES -> f K = true.
Proof. intros H K HK. rewrite forallb_forall in H. auto. Qed.

(** X6.  The struct names of the table are pairwise distinct, so the
    [report] overloads never clash and each entry declares its own
    struct; within a struct no member name is declared twice. *)
Theorem names_are_unique :
  forall K1 K2,
    In K1 QLJS_X_ERROR_TYPES ->
    In K2 QLJS_X_ERROR_TYPES ->
    name K1 = name K2 ->
    K1 = K2 /\ NoDup (member_names K1).
Proof.
  assert (N : NoDup (map name QLJS_X_ERROR_TYPES))
    by (apply distinct_NoDup; vm_compute; reflexivity).
  assert (M : forallb (fun K => distinct (member_names K))
                      QLJS_X_ERROR_TYPES = true)
    by (vm_compute; reflexivity).
  intros K1 K2 H1 H2 E. split.
  - exact (NoDup_map_injective name _ N K1 K2 H1 H2 E).
  - apply distinct_NoDup. exact (forallb_table _ M K1 H1).
Qed.

Lemma names_are_unique_witness :
  let K :=
    QLJS_ERROR_TYPE "error_assignment_to_const_global_variable" "E002"
      [(identifier, "assignment")]
      [error "assignment to const global variable" [member "assignment"]] in
  K = K /\ NoDup (member_names K).
Proof.
  intros K.
  apply (names_are_unique K K);
    [right; left; reflexivity | right; left; reflexivity | reflexivity].
Defined.

(** X7.  Every code of the table is the letter E followed by exactly
    three decimal digits. *)
Theorem codes_have_one_shape K :
  In K QLJS_X_ERROR_TYPES ->
  exists a b c,
    code K = String "E" (String a (String b (String c EmptyString)))
    /\ is_digit a = true /\ is_digit b = true /\ is_digit c = true.
Proof.
  assert (S : forallb (fun K => code_shape (code K)) QLJS_X_ERROR_TYPES = true)
    by (vm_compute; reflexivity).
  intros HK. pose proof (forallb_table _ S K HK) as H.
  unfold code_shape in H.
  destruct (code K) as [|e [|a [|b [|c [|]]]]]; try discriminate H.
  apply andb_prop in H as [H Hc]. apply andb_prop in H as [H Hb].
  apply andb_prop in H as [He Ha].
  apply Ascii.eqb_eq in He. subst e. exists a, b, c. auto.
Qed.

Lemma codes_have_one_shape_witness :
  exists a b c,
    "E002" = String "E" (String a (String b (String c EmptyString)))
    /\ is_digit a = true /\ is_digit b = true /\ is_digit c = true.
Proof.
  apply (codes_have_one_shape
           (QLJS_ERROR_TYPE "error_assignment_to_const_global_variable" "E002"
              [(identifier, "assignment")]
              [error "assignment to const global variable"
                     [member "assignment"]])).
  right. left. reflexivity.
Defined.

(** X8.  Every message of every entry, primary or note, is anchored in
    the source text: its first argument is a member of type [identifier]
    or [source_code_span] that the entry's struct declares, or the span
    from one declared member to another. *)
Theorem every_message_has_a_place K m :
  In K QLJS_X_ERROR_TYPES ->
  In m (format_call K) ->
  exists a rest,
    args_of m = a :: rest
    /\ ((exists n, a = member n
                   /\ (In (identifier, n) (struct_body K)
                       \/ In (source_code_span, n) (struct_body K)))
        \/ (exists f l, a = span_from_to f l
                        /\ In (source_code_span, f) (struct_body K)
                        /\ In (source_code_span, l) (struct_body K))).
Proof.
  assert (A : forallb anchored QLJS_X_ERROR_TYPES = true)
    by (vm_compute; reflexivity).
  assert (D : forall decls n ty,
             declared_type decls n = Some ty -> In (ty, n) decls).
  { induction decls as [|[ty' n'] decls IH]; simpl; [discriminate|].
    intros n ty. destruct (String.eqb_spec n' n).
    - intros E. injection E as <-. subst. now left.
    - intros E. right. auto. }
  intros HK Hm.
  pose proof (forallb_table _ A K HK) as H. unfold anchored in H.
  rewrite forallb_forall in H. specialize (H m Hm).
  destruct (args_of m) as [|a rest] eqn:Ea; [discriminate|].
  exists a, rest. split; [reflexivity|].
  destruct a as [n|f l|n]; simpl in H; [| |discriminate].
  - left. exists n. split; [reflexivity|].
    destruct (declared_type (struct_body K) n) as [[]|] eqn:E;
      try discriminate H; [left|right]; now apply D.
  - right. exists f, l. split; [reflexivity|].
    pose proof table_checked as T.
    pose proof (forallb_table _ T K HK) as B.
    apply andb_prop in B as [_ B]. unfold args_bound in B.
    rewrite forallb_forall in B. specialize (B m Hm). rewrite Ea in B.
    simpl in B. apply andb_prop in B as [B _].
    destruct (declared_type (struct_body K) f) as [[]|] eqn:Ef;
      try discriminate B.
    destruct (declared_type (struct_body K) l) as [[]|] eqn:El;
      try discriminate B.
    split; now apply D.
Qed.

Lemma every_message_has_a_place_witness :
  let K :=
    QLJS_ERROR_TYPE "error_assignment_before_variable_declaration" "E001"
      [(identifier, "assignment"); (identifier, "declaration")]
      [error "variable assigned before its declaration" [member "assignment"];
       note "variable declared here" [member "declaration"]] in
  let m := note "variable declared here" [member "declaration"] in
  exists a rest,
    args_of m = a :: rest
    /\ ((exists n, a = member n
                   /\ (In (identifier, n) (struct_body K)
                       \/ In (source_code_span, n) (struct_body K)))
        \/ (exists f l, a = span_from_to f l
                        /\ In (source_code_span, f) (struct_body K)
                        /\ In (source_code_span, l) (struct_body K))).
Proof.
  intros K m.
  apply (every_message_has_a_place K m);
    [left; reflexivity | right; left; reflexivity].
Defined.

(** X9.  In every message of the table the placeholders are well
    written and each names an argument the call supplies, by an index
    below the number of arguments; a placeholder with a form
    ([headlinese] or [singular]) names a [statement_kind] member, one
    without a form names a span, an identifier or a string; and every
    argument after the first is named by some placeholder. *)
Theorem placeholders_name_arguments K m :
  In K QLJS_X_ERROR_TYPES ->
  In m (format_call K) ->
  exists ps,
    placeholders (text_of m) = Some ps
    /\ (forall p, In p ps ->
          index p < List.length (args_of m)
          /\ exists a, nth_error (args_of m) (index p) = Some a
                       /\ arg_fits (struct_body K) p a = true)
    /\ (forall i, 1 <= i < List.length (args_of m) ->
          exists p, In p ps /\ index p = i).
Proof.
  assert (A : forallb (fun K => forallb (message_ok K) (format_call K))
                      QLJS_X_ERROR_TYPES = true)
    by (vm_compute; reflexivity).
  intros HK Hm.
  pose proof (forallb_table _ A K HK) as H.
  rewrite forallb_forall in H. specialize (H m Hm).
  unfold message_ok in H.
  destruct (placeholders (text_of m)) as [ps|]; [|discriminate].
  apply andb_prop in H as [P U].
  exists ps. split; [reflexivity|]. split.
  - intros p Hp. rewrite forallb_forall in P. specialize (P p Hp).
    unfold placeholder_ok in P.
    destruct (nth_error (args_of m) (index p)) as [a|] eqn:E;
      [|discriminate].
    split; [|eauto]. apply nth_error_Some. congruence.
  - intros i Hi. unfold args_used in U. rewrite forallb_forall in U.
    assert (Hin : In i (seq 1 (List.length (args_of m) - 1)))
      by (apply in_seq; lia).
    specialize (U i Hin). apply existsb_exists in U as (p & Hp & E).
    exists p. split; [exact Hp|]. now apply Nat.eqb_eq.
Qed.

Lemma placeholders_name_arguments_witness :
  let K :=
    QLJS_ERROR_TYPE "error_class_statement_not_allowed_in_body" "E149"
      [(statement_kind, "kind_of_statement");
       (source_code_span, "expected_body");
       (source_code_span, "class_keyword")]
      [error "missing body for {1:headlinese}"
             [member "expected_body"; member "kind_of_statement"];
       note "a class statement is not allowed as the body of {1:singular}"
            [member "class_keyword"; member "kind_of_statement"]] in
  let m :=
    note "a class statement is not allowed as the body of {1:singular}"
         [member "class_keyword"; member "kind_of_statement"] in
  exists ps,
    placeholders (text_of m) = Some ps
    /\ (forall p, In p ps ->
          index p < List.length (args_of m)
          /\ exists a, nth_error (args_of m) (index p) = Some a
                       /\ arg_fits (struct_body K) p a = true)
    /\ (forall i, 1 <= i < List.length (args_of m) ->
          exists p, In p ps /\ index p = i).
Proof.
  intros K m.
  apply (placeholders_name_arguments K m).
  - assert (F : find (fun K' => String.eqb (code K') "E149")
                     QLJS_X_ERROR_TYPES = Some K)
      by (vm_compute; reflexivity).
    exact (proj1 (find_some _ _ F)).
  - right. left. reflexivity.
Defined.

(** The placeholders of three texts of the table. *)
Example placeholders_of_texts :
  placeholders "expected 'as' between '{1}' and '{2}'"
  = Some [{| index := 1; form := "" |}; {| index := 2; form := "" |}]
  /\ placeholders "missing body for {1:headlinese}"
     = Some [{| index := 1; form := "headlinese" |}]
  /\ placeholders "exporting requires '{{' and '}'" = Some [].
Proof. repeat split. Qed.

(** *** The discarding reporter, on any sequence *)

Lemma find_no_overload {W} (body : diagnostic -> W -> W) kinds n :
  ~ In n (map name kinds) ->
  find (fun o : string * (diagnostic -> W -> W) => String.eqb (fst o) n)
       (map (fun K' => (name K', body)) kinds)
  = None.
Proof.
  induction kinds as [|K kinds IH]; simpl; intros H; [reflexivity|].
  destruct (String.eqb_spec (name K) n) as [E|E]; [tauto|].
  apply IH. tauto.
Qed.

(** X10.  Reporting any sequence of diagnostics of kinds of the table to
    the discarding reporter, in any order and with any repetition,
    succeeds and leaves everything as it was.  A value of a struct that
    the table does not declare has no [report] overload at all. *)
Theorem null_error_reporter_on_any_sequence
    (W : Type) (ds : list diagnostic) (w : W) :
  (Forall (fun d => In (kind d) QLJS_X_ERROR_TYPES) ds ->
   report_all null_error_reporter ds w = Some w)
  /\ (forall d,
        ~ In (name (kind d)) error_reporter ->
        report null_error_reporter d w = None).
Proof.
  split.
  - induction 1 as [|d ds Hd _ IH]; simpl; [reflexivity|].
    unfold report at 1, null_error_reporter at 1.
    destruct (find_overload (fun (_ : diagnostic) (x : W) => x) _ _ Hd)
      as [n ->]. exact IH.
  - intros d Hd. unfold report, null_error_reporter.
    now rewrite (find_no_overload (fun (_ : diagnostic) (x : W) => x)).
Qed.

Lemma null_error_reporter_on_any_sequence_witness :
  let K1 :=
    QLJS_ERROR_TYPE "error_assignment_before_variable_declaration" "E001"
      [(identifier, "assignment"); (identifier, "declaration")]
      [error "variable assigned before its declaration" [member "assignment"];
       note "variable declared here" [member "declaration"]] in
  let K2 :=
    QLJS_ERROR_TYPE "error_assignment_to_const_global_variable" "E002"
      [(identifier, "assignment")]
      [error "assignment to const global variable" [member "assignment"]] in
  let x := identifier_value {| span_begin := 4; span_end := 5 |} "x" in
  let d1 := {| kind := K1; members := [x; x] |} in
  let d2 := {| kind := K2; members := [x] |} in
  report_all null_error_reporter [d2; d1; d2; d2] ["kept"] = Some ["kept"].
Proof.
  intros K1 K2 x d1 d2.
  apply (proj1 (null_error_reporter_on_any_sequence
                  (list string) [d2; d1; d2; d2] ["kept"])).
  assert (H1 : In K1 QLJS_X_ERROR_TYPES) by (left; reflexivity).
  assert (H2 : In K2 QLJS_X_ERROR_TYPES) by (right; left; reflexivity).
  repeat (constructor; [assumption|]). constructor.
Defined.

End Error_checks_facts.

(** ** generate-benchmark-html *)

Module Benchmark_html_facts.

Import Benchmark_html.
Local Open Scope list_scope.

(** *** Splitting a string *)

Lemma split_first_has_no_sep sep s : contains sep (fst (split sep s)) = false.
Proof.
  induction s as [|c s IH]; simpl; [reflexivity|].
  destruct (split sep s) as [first others]. simpl in IH.
  destruct (Ascii.eqb c sep) eqn:E; simpl; [reflexivity|].
  now rewrite E.
Qed.

Lemma split_pieces_have_no_sep sep s :
  Forall (fun piece => contains sep piece = false) (str_split s sep).
Proof.
  unfold str_split. induction s as [|c s IH]; simpl.
  - repeat constructor.
  - destruct (split sep s) as [first others].
    inversion IH as [|? ? Hf Ho]; subst.
    destruct (Ascii.eqb c sep) eqn:E.
    + repeat constructor; auto.
    + constructor; [|exact Ho]. simpl. now rewrite E.
Qed.

Lemma split_join sep s :
  String.concat (String sep EmptyString) (str_split s sep) = s.
Proof.
  unfold str_split. induction s as [|c s IH]; simpl; [reflexivity|].
  destruct (split sep s) as [first others].
  destruct (Ascii.eqb_spec c sep) as [->|N].
  - cbn [String.concat]. cbn [String.concat] in IH.
    destruct others; simpl in *; congruence.
  - cbn [String.concat]. cbn [String.concat] in IH.
    destruct others; simpl in *; congruence.
Qed.

Lemma split_no_sep sep s :
  contains sep s = false -> split sep s = (s, []).
Proof.
  induction s as [|c s IH]; simpl; [reflexivity|]. intros H.
  apply orb_false_iff in H as [Hc Hs]. rewrite (IH Hs), Hc. reflexivity.
Qed.

Lemma split_at_first_sep sep a b :
  contains sep a = false ->
  fst (split sep (a ++ String sep b)) = a.
Proof.
  induction a as [|c a IH]; simpl; intros H.
  - destruct (split sep b). now rewrite Ascii.eqb_refl.
  - apply orb_false_iff in H as [Hc Ha]. specialize (IH Ha).
    destruct (split sep (a ++ String sep b)) as [first others].
    simpl in IH. rewrite Hc. simpl. congruence.
Qed.

(** *** Dicts *)

Lemma dict_getitem_cases {V} (d : list (string * V)) key :
  match dict_getitem d key with
  | returns v => In (key, v) d
  | raises e => e = KeyError key /\ ~ In key (map fst d)
  end.
Proof.
  induction d as [|[k v] d IH]; simpl; [auto|].
  destruct (String.eqb_spec k key) as [->|N]; [now left|].
  destruct (dict_getitem d key) as [v'|e]; [now right|].
  destruct IH as [-> IH]. split; [reflexivity|]. intros [E|I]; auto.
Qed.

Lemma one_key_per_value {V} (d : list (string * V)) a b v :
  NoDup (map snd d) -> In (a, v) d -> In (b, v) d -> a = b.
Proof.
  induction d as [|[k w] d IH]; simpl; [tauto|].
  intros N [Ea|Ia] [Eb|Ib]; inversion N as [|? ? Hn N']; subst.
  - congruence.
  - injection Ea as <- <-. exfalso. apply Hn.
    now apply (in_map snd) in Ib.
  - injection Eb as <- <-. exfalso. apply Hn.
    now apply (in_map snd) in Ia.
  - now apply IH.
Qed.

Lemma hues_checked :
  NoDup (map snd hues)
  /\ Forall (fun kv => (0 <= snd kv < 360)%Z /\ (snd kv mod 60 = 0)%Z) hues.
Proof.
  split.
  - unfold hues. simpl.
    repeat (constructor; [simpl; intuition discriminate|]). constructor.
  - unfold hues. repeat (constructor; [simpl; split; [lia|reflexivity]|]).
    constructor.
Qed.

Section Floats.

Variable float : Type.
Variables fadd fsub fmul fdiv : float -> float -> float.
Variable float_of_int : Z -> float.
Variable flt : float -> float -> bool.
Variable ceil : float -> py Z.
Variable float_0_1 : float.

(** X11.  The name [parse_criterion_json] gives a series is the text of
    [reportName] before its first slash, the whole text when it has
    none: taking it never raises, the name contains no slash, and
    [reportName] is the name alone or the name, a slash and a rest.
    The pieces of the split, joined by slashes, are the text again. *)
Theorem series_name_is_the_text_before_the_first_slash (r : report float) :
  exists name,
    series_name r = returns name
    /\ contains "/" name = false
    /\ (reportName r = name
        \/ exists rest, reportName r = (name ++ String "/" rest)%string)
    /\ String.concat "/" (str_split (reportName r) "/") = reportName r
    /\ (forall a b,
          contains "/" a = false ->
          reportName r = (a ++ String "/" b)%string ->
          name = a).
Proof.
  unfold series_name, str_split.
  pose proof (split_first_has_no_sep "/" (reportName r)) as N.
  pose proof (split_join "/" (reportName r)) as J.
  unfold str_split in J.
  destruct (split "/" (reportName r)) as [first others] eqn:E.
  exists first. simpl in N.
  split; [reflexivity|]. split; [exact N|]. split; [|split; [exact J|]].
  - destruct others as [|o os]; [left; now rewrite <- J|].
    right. exists (String.concat "/" (o :: os)).
    rewrite <- J at 1. reflexivity.
  - intros a b Ha Hr. pose proof (split_at_first_sep "/" a b Ha) as F.
    rewrite <- Hr, E in F. exact F.
Qed.

(** *** Hues *)

(** X12.  [Series.hue] raises [KeyError] with the series' name exactly
    when the name is not one of the six the dict lists.  For the six it
    returns a multiple of 60 from 0 up to 300, and two series get the
    same hue only when they have the same name. *)
Theorem hue_of_a_series (self other : Series float) :
  (In (name self) (map fst hues)
   \/ hue float_of_int self = raises (KeyError (name self)))
  /\ (hue float_of_int self = raises (KeyError (name self)) ->
      ~ In (name self) (map fst hues))
  /\ (forall h,
        dict_getitem hues (name self) = returns h ->
        In (name self) (map fst hues)
        /\ hue float_of_int self = returns (float_of_int h)
        /\ (0 <= h < 360)%Z /\ (h mod 60 = 0)%Z
        /\ (dict_getitem hues (name other) = returns h ->
            name other = name self)).
Proof using Type.
  unfold hue. destruct hues_checked as [N R].
  pose proof (dict_getitem_cases hues (name self)) as C.
  pose proof (dict_getitem_cases hues (name other)) as Co.
  destruct (dict_getitem hues (name self)) as [h|e].
  - split; [left; now apply (in_map fst) in C|].
    split; [discriminate|].
    intros h' E. injection E as <-.
    split; [now apply (in_map fst) in C|]. split; [reflexivity|].
    rewrite Forall_forall in R. pose proof (R _ C) as [R1 R2].
    split; [exact R1|]. split; [exact R2|].
    intros Eo. rewrite Eo in Co. exact (one_key_per_value _ _ _ _ N Co C).
  - destruct C as [-> C]. split; [now right|]. split; [auto|].
    discriminate.
Qed.

(** *** Sorting *)

Section Sorting.

Context {A : Type} (key : A -> float).

Lemma insert_by_perm x l : Permutation (insert_by flt key x l) (x :: l).
Proof.
  induction l as [|y l IH]; simpl; [reflexivity|].
  destruct (flt (key y) (key x)); [|reflexivity].
  rewrite IH. apply perm_swap.
Qed.

Lemma sort_by_perm l : Permutation (sort_by flt key l) l.
Proof.
  induction l as [|x l IH]; simpl; [reflexivity|].
  rewrite insert_by_perm. now constructor.
Qed.

Lemma ordered_keys_incl l l' :
  ordered_keys flt l -> incl l' l -> ordered_keys flt l'.
Proof. intros [H1 H2] I. split; intros; eauto. Qed.

Lemma insert_by_sorted x l :
  ordered_keys flt (map key (x :: l)) ->
  StronglySorted (fun a b => flt (key b) (key a) = false) l ->
  StronglySorted (fun a b => flt (key b) (key a) = false)
                 (insert_by flt key x l).
Proof.
  induction l as [|y l IH]; simpl; intros O S.
  - repeat constructor.
  - inversion S as [|? ? S' F]; subst. destruct O as [Asym Neg].
    assert (Kx : In (key x) (key x :: key y :: map key l)) by (left; auto).
    assert (Ky : In (key y) (key x :: key y :: map key l))
      by (right; left; auto).
    destruct (flt (key y) (key x)) eqn:E.
    + constructor.
      * apply IH; [|exact S'].
        apply (ordered_keys_incl (key x :: key y :: map key l));
          [split; assumption|].
        intros k [<-|Hk]; [left; auto | right; right; exact Hk].
      * apply (Permutation_Forall (Permutation_sym (insert_by_perm x l))).
        constructor; [|exact F]. now apply Asym.
    + constructor; [exact S|]. constructor; [exact E|].
      rewrite Forall_forall in F |- *. intros z Hz.
      apply (Neg (key z) (key y) (key x)); auto.
      right. right. now apply in_map.
Qed.

Lemma sort_by_sorted l :
  ordered_keys flt (map key l) ->
  StronglySorted (fun a b => flt (key b) (key a) = false)
                 (sort_by flt key l).
Proof.
  induction l as [|x l IH]; simpl; intros O; [constructor|].
  apply insert_by_sorted.
  - apply (ordered_keys_incl (key x :: map key l)); [exact O|].
    intros k [<-|Hk]; [left; auto|]. right.
    apply in_map_iff in Hk as (a & <- & Ha). apply in_map.
    exact (Permutation_in _ (sort_by_perm l) Ha).
  - apply IH. apply (ordered_keys_incl (key x :: map key l)); [exact O|].
    intros k Hk. now right.
Qed.

End Sorting.

(** *** Parsing *)

Lemma getitem_first {B} (x : B) l : getitem (x :: l) 0 = returns x.
Proof.
  unfold getitem. simpl List.length.
  replace (0 <? 0)%Z with false by reflexivity.
  replace (0 <=? 0)%Z with true by reflexivity.
  replace (0 <? Z.of_nat (S (List.length l)))%Z with true
    by (symmetry; apply Z.ltb_lt; lia).
  reflexivity.
Qed.

Lemma series_of_report_made r :
  series_of_report fadd fsub fmul float_of_int r
  = returns (made_of fadd fsub fmul float_of_int r).
Proof.
  unfold series_of_report, series_name, str_split, made_of.
  destruct (split "/" (reportName r)) as [first others].
  rewrite getitem_first. reflexivity.
Qed.

Lemma for_each_made l :
  for_each (series_of_report fadd fsub fmul float_of_int) l
  = returns (map (made_of fadd fsub fmul float_of_int) l).
Proof.
  induction l as [|r l IH]; simpl; [reflexivity|].
  now rewrite series_of_report_made, IH.
Qed.

Lemma parse_criterion_json_cases (reports : list (report float)) :
  exists seriess,
    parse_criterion_json fadd fsub fmul float_of_int flt reports
    = returns seriess
    /\ Permutation (map (made_of fadd fsub fmul float_of_int) reports)
                   seriess
    /\ List.length seriess = List.length reports
    /\ (ordered_keys flt
          (map (fun r => avg_ms (made_of fadd fsub fmul float_of_int r))
               reports) ->
        StronglySorted (fun a b => flt (avg_ms b) (avg_ms a) = false)
                       seriess).
Proof.
  unfold parse_criterion_json. rewrite for_each_made. simpl.
  eexists. split; [reflexivity|].
  pose proof (sort_by_perm avg_ms
                (map (made_of fadd fsub fmul float_of_int) reports)) as P.
  split; [now apply Permutation_sym|]. split.
  - rewrite (Permutation_length P). apply length_map.
  - intros O. apply sort_by_sorted. now rewrite map_map.
Qed.

(** X13.  [parse_criterion_json] never raises on reports of the shape
    it reads.  It returns one series per report, none lost or added:
    the series of the reports, each with its name cut at the first
    slash and its three times scaled by 1000, in another order.  When
    [<] orders the averages (none is NaN), the series come in
    ascending order of [avg_ms]: no series is followed, anywhere later
    in the list, by one with a smaller average. *)
Theorem parse_criterion_json_sorts_by_average (reports : list (report float)) :
  exists seriess,
    parse_criterion_json fadd fsub fmul float_of_int flt reports
    = returns seriess
    /\ Permutation (map (made_of fadd fsub fmul float_of_int) reports)
                   seriess
    /\ List.length seriess = List.length reports
    /\ (ordered_keys flt
          (map (fun r => avg_ms (made_of fadd fsub fmul float_of_int r))
               reports) ->
        StronglySorted (fun a b => flt (avg_ms b) (avg_ms a) = false)
                       seriess).
Proof. exact (parse_criterion_json_cases reports). Qed.

(** *** The chart *)

Lemma py_max_among l m : py_max flt l = returns m -> In m l.
Proof.
  destruct l as [|x l]; simpl; [discriminate|]. intros E. injection E as <-.
  revert x. induction l as [|y l IH]; intros x; simpl; [now left|].
  destruct (IH (if flt x y then y else x)) as [E|I]; [|now right; right].
  rewrite <- E. destruct (flt x y); [right; left|left]; reflexivity.
Qed.

Lemma getitem_filter_first {B} (f : B -> bool) l :
  match getitem (filter f l) 0 with
  | returns x =>
      exists before after,
        l = before ++ x :: after /\ f x = true
        /\ Forall (fun y => f y = false) before
  | raises e => e = IndexError /\ Forall (fun y => f y = false) l
  end.
Proof.
  induction l as [|y l IH]; simpl.
  - split; [reflexivity|constructor].
  - destruct (f y) eqn:E.
    + rewrite getitem_first. exists [], l. auto.
    + destruct (getitem (filter f l) 0) as [x|e].
      * destruct IH as (before & after & -> & Hx & Hb).
        exists (y :: before), after. auto.
      * destruct IH as [-> Hl]. auto.
Qed.

Lemma make_benchmark_html_chart_cases (seriess : list (Series float)) :
  match make_benchmark_html_chart fdiv float_of_int flt ceil float_0_1
                                  seriess with
  | returns ch =>
      In (chart_max ch) (map max_ms seriess)
      /\ (exists c,
            ceil (fdiv (fdiv (chart_max ch) (float_of_int 7))
                       (float_of_int 25)) = returns c
            /\ ms_per_linear_tick ch = (25 * c)%Z
            /\ linear_ticks_ms ch
               = map (fun i => (25 * c * i)%Z) [1; 2; 3; 4; 5; 6; 7]%Z
            /\ chart_max_ms ch = (175 * c)%Z
            /\ log_ticks_ms ch
               = [of_float float_0_1; of_int 1; of_int 10; of_int 100;
                  of_int (175 * c)]%Z)
      /\ (exists before after,
            seriess = before ++ qljs_series ch :: after
            /\ name (qljs_series ch) = "quick-lint-js"
            /\ Forall (fun s => name s <> "quick-lint-js") before)
  | raises e =>
      (e = ValueError /\ seriess = [])
      \/ (seriess <> []
          /\ exists m,
               py_max flt (map max_ms seriess) = returns m
               /\ ceil (fdiv (fdiv m (float_of_int 7)) (float_of_int 25))
                  = raises e)
      \/ (e = IndexError /\ seriess <> []
          /\ Forall (fun s => name s <> "quick-lint-js") seriess)
  end.
Proof.
  unfold make_benchmark_html_chart.
  destruct (py_max flt (map max_ms seriess)) as [m|e] eqn:Em.
  2:{ destruct seriess; simpl in Em; [|discriminate].
      injection Em as <-. simpl. auto. }
  assert (Hne : seriess <> []) by (intros ->; discriminate Em).
  cbn [bind]. unfold linear_tick_count.
  destruct (ceil (fdiv (fdiv m (float_of_int 7)) (float_of_int 25)))
    as [c|e] eqn:Ec; cbn [bind].
  2:{ right. left. split; [exact Hne|]. exists m. auto. }
  change (range 7) with [0; 1; 2; 3; 4; 5; 6]%Z. cbn [map List.length].
  change (Z.of_nat 7 =? 7)%Z with true. cbn [py_assert bind].
  unfold getitem at 1. cbn [List.length].
  change (-1 <? 0)%Z with true. change (-1 + Z.of_nat 7)%Z with 6%Z.
  change ((0 <=? 6)%Z && (6 <? Z.of_nat 7)%Z) with true.
  change (Z.to_nat 6) with 6. cbn [nth_error bind].
  pose proof (getitem_filter_first
                (fun series : Series float =>
                   String.eqb (name series) "quick-lint-js") seriess) as G.
  destruct (getitem _ 0) as [q|e]; cbn [bind].
  - destruct G as (before & after & E & Hq & Hb).
    cbv beta iota delta [chart_max ms_per_linear_tick linear_ticks_ms
                         chart_max_ms log_ticks_ms qljs_series].
    split; [exact (py_max_among _ _ Em)|]. split.
    + exists c. split; [exact Ec|]. split; [lia|]. split.
      * cbn [map]. repeat (f_equal; try lia).
      * split; [lia|]. repeat (f_equal; try lia).
    + exists before, after. split; [exact E|].
      split; [now apply String.eqb_eq|].
      eapply Forall_impl; [|exact Hb]. simpl. intros s Hs.
      now apply String.eqb_neq.
  - destruct G as [-> Hl]. right. right. split; [reflexivity|].
    split; [exact Hne|].
    eapply Forall_impl; [|exact Hl]. simpl. intros s Hs.
    now apply String.eqb_neq.
Qed.


(** *** From the reports to the chart *)

Lemma sorted_after {B} (R : B -> B -> Prop) before q after :
  StronglySorted R (before ++ q :: after) -> Forall (R q) after.
Proof.
  induction before as [|x before IH]; simpl; intros S;
    inversion S; subst; auto.
Qed.


End Floats.

(** *** The theorems above at the integers *)

Lemma series_name_is_the_text_before_the_first_slash_witness :
  exists name,
    series_name {| reportName := "quick-lint-js/open-wait-close/100";
                   estPoint := 1%Z; confIntLDX := 0%Z; confIntUDX := 0%Z |}
    = returns name
    /\ name = "quick-lint-js".
Proof.
  destruct (series_name_is_the_text_before_the_first_slash Z
              {| reportName := "quick-lint-js/open-wait-close/100";
                 estPoint := 1%Z; confIntLDX := 0%Z; confIntUDX := 0%Z |})
    as (name & E & _ & _ & _ & F).
  exists name. split; [exact E|].
  apply (F "quick-lint-js" "open-wait-close/100"); reflexivity.
Defined.

Lemma hue_of_a_series_witness :
  let flow := {| name := "Flow"; min_ms := 1; avg_ms := 2; max_ms := 3 |}%Z in
  let deno := {| name := "Deno"; min_ms := 1; avg_ms := 2; max_ms := 3 |}%Z in
  In (name flow) (map fst hues)
  /\ hue (fun z => z) flow = returns 180%Z
  /\ (0 <= 180 < 360)%Z /\ (180 mod 60 = 0)%Z
  /\ (dict_getitem hues (name deno) = returns 180%Z ->
      name deno = name flow).
Proof.
  intros flow deno.
  apply (proj2 (proj2 (hue_of_a_series Z (fun z => z) flow deno)) 180%Z).
  reflexivity.
Defined.

Lemma parse_criterion_json_sorts_by_average_witness :
  let reports :=
    [{| reportName := "eslint-server/open-wait-close/100";
        estPoint := 70; confIntLDX := 2; confIntUDX := 3 |};
     {| reportName := "quick-lint-js/open-wait-close/100";
        estPoint := 5; confIntLDX := 1; confIntUDX := 1 |};
     {| reportName := "Flow/open-wait-close/100";
        estPoint := 40; confIntLDX := 4; confIntUDX := 6 |}]%Z in
  exists seriess,
    parse_criterion_json Z.add Z.sub Z.mul (fun z => z) Z.ltb reports
    = returns seriess
    /\ map name seriess = ["quick-lint-js"; "Flow"; "eslint-server"]
    /\ StronglySorted (fun a b => (avg_ms b <? avg_ms a)%Z = false) seriess.
Proof.
  intros reports.
  destruct (parse_criterion_json_sorts_by_average
              Z Z.add Z.sub Z.mul (fun z => z) Z.ltb reports)
    as (seriess & E & _ & _ & S).
  exists seriess. split; [exact E|]. split.
  - vm_compute in E. injection E as <-. reflexivity.
  - apply S. split.
    + intros a b _ _ H. apply Z.ltb_lt in H. apply Z.ltb_ge. lia.
    + intros a b c _ _ _ H1 H2. apply Z.ltb_ge in H1, H2.
      apply Z.ltb_ge. lia.
Defined.



End Benchmark_html_facts.
